(** * Quiz Battle (multi-player trivia): a shallow embedding of [script.js]

    The program is a browser quiz for several local players.  Its logic is a
    small state machine over module-level variables, driven by button clicks
    and by one interval timer.  This development embeds the state and every
    handler of [script.js] as functions on an explicit [State] record and
    proves properties of the question loader, the difficulty filter, the
    shuffle, the turn engine and the countdown timer.

    The repository also holds two earlier variants, [script1.js] and
    [script9.js]: the same machine without the answer history and with a
    countdown in hard mode only.  The embedding follows [script.js].

    Conventions of the embedding:
    - array indices and counters that the program only resets to zero or
      increments are [nat]; the countdown, which is decremented and compared
      with zero, is [Z];
    - a JavaScript string is a [string] whose characters are read as code
      units below 256;
    - a handler that can throw returns a [result]; an exception that reaches
      the event loop leaves the variables as they were at the throw;
    - of the page, only what the handlers' control flow depends on is kept:
      the visible section, the message under the name input, and the
      browser's table of live intervals. *)

From Stdlib Require Import ZArith Ascii Permutation Lia.
From stdpp Require Import base option list strings pretty.

Set Warnings "-register-all".
Open Scope string_scope.
Open Scope nat_scope.

(** ** JavaScript values *)

(** The values that [response.json()] can produce, plus [undefined].  An
    object is the list of its own properties, each key once.  Numbers are
    only ever tested for truthiness, so integers stand for them. *)
Inductive jsval : Type :=
| JUndef
| JNull
| JBool (b : bool)
| JNum (z : Z)
| JStr (s : string)
| JArr (items : list jsval)
| JObj (fields : list (string * jsval)).

Inductive exn : Type :=
| InvalidQuestion (index : nat)   (* new Error(`Invalid question at index ${i}.`) *)
| TypeError.                      (* property read on null or undefined *)

Definition result (A : Type) : Type := exn + A.

Definition ok {A} (a : A) : result A := inr a.
Definition throw {A} (e : exn) : result A := inl e.

Definition rbind {A B} (r : result A) (k : A -> result B) : result B :=
  match r with
  | inl e => inl e
  | inr a => k a
  end.

Notation "x <-! r ;; k" := (rbind r (fun x => k))
  (at level 100, r at next level, right associativity).

Fixpoint assoc (k : string) (fields : list (string * jsval)) : option jsval :=
  match fields with
  | [] => None
  | (k', v) :: rest => if String.eqb k k' then Some v else assoc k rest
  end.

(** [v.k] for the property names the program reads ([questionItem],
    [options], [answer], [difficulty]): none of them is defined on a
    primitive or on an array, and reading a property of [null] or
    [undefined] throws. *)
Definition getProp (k : string) (v : jsval) : result jsval :=
  match v with
  | JUndef | JNull => throw TypeError
  | JObj fields => ok (default JUndef (assoc k fields))
  | _ => ok JUndef
  end.

Definition typeof (v : jsval) : string :=
  match v with
  | JUndef => "undefined"
  | JNull => "object"
  | JBool _ => "boolean"
  | JNum _ => "number"
  | JStr _ => "string"
  | JArr _ => "object"
  | JObj _ => "object"
  end.

Definition isArray (v : jsval) : bool :=
  match v with
  | JArr _ => true
  | _ => false
  end.

Definition truthy (v : jsval) : bool :=
  match v with
  | JUndef | JNull => false
  | JBool b => b
  | JNum z => negb (z =? 0)%Z
  | JStr s => negb (String.eqb s "")
  | JArr _ | JObj _ => true
  end.

(** [a === b] where [b] is known to be a string. *)
Definition strictEqStr (a : jsval) (b : string) : bool :=
  match a with
  | JStr s => String.eqb s b
  | _ => false
  end.

(** ** Questions *)

(** An entry of [backupQuestions].  The store only ever holds the built-in
    literals or entries that passed [validateQuestions], so [questionItem]
    and [answer] are strings and [options] is an array; [difficulty] is
    whatever value the entry carries ([JUndef] when absent). *)
Record Question : Type := mkQuestion {
  questionItem : string;
  options : list jsval;
  answer : string;
  difficulty : jsval
}.

Definition builtinQuestions : list Question :=
  [ mkQuestion "Which organization manages hydropower projects in Bhutan?"
      [ JStr "Druk Green Power Corporation"; JStr "Bhutan Power Corporation";
        JStr "Hydro Bhutan"; JStr "Royal Energy Agency" ]
      "Druk Green Power Corporation" (JStr "easy");
    mkQuestion "Which Bhutanese festival involves mask dances and blessings?"
      [ JStr "Tshechu"; JStr "Losar"; JStr "Thruebab"; JStr "Neykor" ]
      "Tshechu" (JStr "easy");
    mkQuestion "Which Bhutanese king abdicated in favor of his son in 2006?"
      [ JStr "Jigme Singye Wangchuck"; JStr "Jigme Dorji Wangchuck";
        JStr "Ugyen Wangchuck"; JStr "Jigme Khesar Namgyel Wangchuck" ]
      "Jigme Singye Wangchuck" (JStr "easy");
    mkQuestion "Which Bhutanese policy restricts the number of tourists annually?"
      [ JStr "High Value, Low Volume Tourism"; JStr "Free Tourism";
        JStr "Visa-Free Policy"; JStr "Mass Tourism" ]
      "High Value, Low Volume Tourism" (JStr "hard");
    mkQuestion "Which year did Bhutan first hold democratic elections?"
      [ JStr "2008"; JStr "2005"; JStr "2010"; JStr "2013" ]
      "2008" (JStr "hard") ].

(** ** Question loading and validation *)

Definition QUESTIONS_SOURCES : list string := [ "./questions.json" ].

(** What one [fetch(url)] followed by [response.json()] can do: the fetch
    rejects, or it yields a response with its [ok] flag whose body either
    fails to parse ([None]) or parses to a value. *)
Inductive fetch_outcome : Type :=
| FetchRejected
| Response (isOk : bool) (body : option jsval).

Definition network : Type := string -> fetch_outcome.

(** The test of [validateQuestions] on one entry; [||] evaluates left to
    right and stops at the first true operand. *)
Definition entryInvalid (q : jsval) : result bool :=
  p <-! getProp "questionItem" q ;;
  if negb (String.eqb (typeof p) "string") then ok true
  else
    o <-! getProp "options" q ;;
    if negb (isArray o) then ok true
    else
      a <-! getProp "answer" q ;;
      ok (negb (String.eqb (typeof a) "string")).

(** [data.forEach((questionItem, i) => ...)], started at index [i]. *)
Fixpoint validateFrom (i : nat) (data : list jsval) : result unit :=
  match data with
  | [] => ok tt
  | q :: rest =>
      bad <-! entryInvalid q ;;
      if bad then throw (InvalidQuestion i) else validateFrom (S i) rest
  end.

Definition validateQuestions (data : list jsval) : result unit :=
  validateFrom 0 data.

(** [{...questionItem, difficulty: questionItem.difficulty || undefined}],
    read back as a [Question]; defined on the entries that pass validation. *)
Definition storeEntry (q : jsval) : option Question :=
  match q with
  | JObj fields =>
      match assoc "questionItem" fields, assoc "options" fields,
            assoc "answer" fields with
      | Some (JStr p), Some (JArr os), Some (JStr a) =>
          let d := default JUndef (assoc "difficulty" fields) in
          Some (mkQuestion p os a (if truthy d then d else JUndef))
      | _, _, _ => None
      end
  | _ => None
  end.

(** The body of the [try] for one URL: [Some qs] when the function assigns
    [backupQuestions = qs] and returns, [None] when the loop goes on to the
    next URL (a [continue], a caught exception, or the [if] not taken). *)
Definition tryLoad (out : fetch_outcome) : option (list Question) :=
  match out with
  | FetchRejected => None
  | Response isOk body =>
      if negb isOk then None
      else
        match body with
        | None => None
        | Some (JArr items) =>
            if negb (length items =? 0) then
              match validateQuestions items with
              | inl _ => None
              | inr _ => mapM storeEntry items
              end
            else None
        | Some _ => None
        end
  end.

Fixpoint loadFrom (urls : list string) (fetch : network)
    (backup : list Question) : list Question :=
  match urls with
  | [] => backup
  | url :: rest =>
      match tryLoad (fetch url) with
      | Some qs => qs
      | None => loadFrom rest fetch backup
      end
  end.

(** [loadQuestions()]: the value of [backupQuestions] when it returns. *)
Definition loadQuestions (fetch : network) (backup : list Question)
    : list Question :=
  loadFrom QUESTIONS_SOURCES fetch backup.

(** ** Session state *)

(** A cell of the [scores] array: a number, [NaN], or a hole left by a write
    past the end. *)
Inductive score : Type :=
| Pts (n : nat)
| NaN
| Hole.

(** The four [.section] blocks of the page; [setSection] shows one and hides
    the others. *)
Inductive screen : Type :=
| SetupNames        (* "setup-names" *)
| SetupDifficulty   (* "setup-difficulty" *)
| Quiz              (* "quiz" *)
| Results.          (* "results" *)

Record LogEntry : Type := mkLogEntry {
  playerIndex : nat;
  playerName : option string;     (* [None]: playerNames[currentPlayer] is undefined *)
  questionNumber : nat;
  question : string;
  entryOptions : list jsval;
  selectedAnswer : jsval;
  correctAnswer : string;
  isCorrect : bool
}.

Record State : Type := mkState {
  backupQuestions : list Question;
  playerNames : list string;
  scores : list score;
  currentPlayer : nat;
  currentQuestion : nat;
  chosenDifficulty : string;
  playerIndexCounter : nat;
  answersLog : list LogEntry;
  questionTimerId : option nat;     (* [None] is null *)
  questionTimeLeft : Z;
  (* the page and the browser *)
  visible : screen;
  setupMsg : string;
  liveIntervals : list nat;         (* handles of the intervals still scheduled *)
  nextIntervalId : nat              (* the handle the next setInterval returns *)
}.

Definition set_backupQuestions (v : list Question) (s : State) : State :=
  mkState v (playerNames s) (scores s) (currentPlayer s) (currentQuestion s)
    (chosenDifficulty s) (playerIndexCounter s) (answersLog s)
    (questionTimerId s) (questionTimeLeft s) (visible s) (setupMsg s)
    (liveIntervals s) (nextIntervalId s).

Definition set_playerNames (v : list string) (s : State) : State :=
  mkState (backupQuestions s) v (scores s) (currentPlayer s) (currentQuestion s)
    (chosenDifficulty s) (playerIndexCounter s) (answersLog s)
    (questionTimerId s) (questionTimeLeft s) (visible s) (setupMsg s)
    (liveIntervals s) (nextIntervalId s).

Definition set_scores (v : list score) (s : State) : State :=
  mkState (backupQuestions s) (playerNames s) v (currentPlayer s)
    (currentQuestion s) (chosenDifficulty s) (playerIndexCounter s)
    (answersLog s) (questionTimerId s) (questionTimeLeft s) (visible s)
    (setupMsg s) (liveIntervals s) (nextIntervalId s).

Definition set_currentPlayer (v : nat) (s : State) : State :=
  mkState (backupQuestions s) (playerNames s) (scores s) v (currentQuestion s)
    (chosenDifficulty s) (playerIndexCounter s) (answersLog s)
    (questionTimerId s) (questionTimeLeft s) (visible s) (setupMsg s)
    (liveIntervals s) (nextIntervalId s).

Definition set_currentQuestion (v : nat) (s : State) : State :=
  mkState (backupQuestions s) (playerNames s) (scores s) (currentPlayer s) v
    (chosenDifficulty s) (playerIndexCounter s) (answersLog s)
    (questionTimerId s) (questionTimeLeft s) (visible s) (setupMsg s)
    (liveIntervals s) (nextIntervalId s).

Definition set_chosenDifficulty (v : string) (s : State) : State :=
  mkState (backupQuestions s) (playerNames s) (scores s) (currentPlayer s)
    (currentQuestion s) v (playerIndexCounter s) (answersLog s)
    (questionTimerId s) (questionTimeLeft s) (visible s) (setupMsg s)
    (liveIntervals s) (nextIntervalId s).

Definition set_playerIndexCounter (v : nat) (s : State) : State :=
  mkState (backupQuestions s) (playerNames s) (scores s) (currentPlayer s)
    (currentQuestion s) (chosenDifficulty s) v (answersLog s)
    (questionTimerId s) (questionTimeLeft s) (visible s) (setupMsg s)
    (liveIntervals s) (nextIntervalId s).

Definition set_answersLog (v : list LogEntry) (s : State) : State :=
  mkState (backupQuestions s) (playerNames s) (scores s) (currentPlayer s)
    (currentQuestion s) (chosenDifficulty s) (playerIndexCounter s) v
    (questionTimerId s) (questionTimeLeft s) (visible s) (setupMsg s)
    (liveIntervals s) (nextIntervalId s).

Definition set_questionTimerId (v : option nat) (s : State) : State :=
  mkState (backupQuestions s) (playerNames s) (scores s) (currentPlayer s)
    (currentQuestion s) (chosenDifficulty s) (playerIndexCounter s)
    (answersLog s) v (questionTimeLeft s) (visible s) (setupMsg s)
    (liveIntervals s) (nextIntervalId s).

Definition set_questionTimeLeft (v : Z) (s : State) : State :=
  mkState (backupQuestions s) (playerNames s) (scores s) (currentPlayer s)
    (currentQuestion s) (chosenDifficulty s) (playerIndexCounter s)
    (answersLog s) (questionTimerId s) v (visible s) (setupMsg s)
    (liveIntervals s) (nextIntervalId s).

Definition set_visible (v : screen) (s : State) : State :=
  mkState (backupQuestions s) (playerNames s) (scores s) (currentPlayer s)
    (currentQuestion s) (chosenDifficulty s) (playerIndexCounter s)
    (answersLog s) (questionTimerId s) (questionTimeLeft s) v (setupMsg s)
    (liveIntervals s) (nextIntervalId s).

Definition set_setupMsg (v : string) (s : State) : State :=
  mkState (backupQuestions s) (playerNames s) (scores s) (currentPlayer s)
    (currentQuestion s) (chosenDifficulty s) (playerIndexCounter s)
    (answersLog s) (questionTimerId s) (questionTimeLeft s) (visible s) v
    (liveIntervals s) (nextIntervalId s).

Definition set_liveIntervals (v : list nat) (s : State) : State :=
  mkState (backupQuestions s) (playerNames s) (scores s) (currentPlayer s)
    (currentQuestion s) (chosenDifficulty s) (playerIndexCounter s)
    (answersLog s) (questionTimerId s) (questionTimeLeft s) (visible s)
    (setupMsg s) v (nextIntervalId s).

Definition set_nextIntervalId (v : nat) (s : State) : State :=
  mkState (backupQuestions s) (playerNames s) (scores s) (currentPlayer s)
    (currentQuestion s) (chosenDifficulty s) (playerIndexCounter s)
    (answersLog s) (questionTimerId s) (questionTimeLeft s) (visible s)
    (setupMsg s) (liveIntervals s) v.

Definition EASY_MODE_TIMER_SECONDS : Z := 10.
Definition HARD_MODE_TIMER_SECONDS : Z := 15.

(** ** Page helpers *)

Definition setSection (name : screen) (s : State) : State :=
  set_visible name s.

(** [element.textContent = text || ""]. *)
Definition setMsg (text : string) (s : State) : State :=
  set_setupMsg text s.

(** ** String.prototype.trim *)

Definition isWhiteSpace (c : ascii) : bool :=
  let n := nat_of_ascii c in
  (n =? 9) || (n =? 10) || (n =? 11) || (n =? 12) || (n =? 13) ||
  (n =? 32) || (n =? 160).

Fixpoint trimStart (s : string) : string :=
  match s with
  | EmptyString => EmptyString
  | String c rest => if isWhiteSpace c then trimStart rest else s
  end.

Fixpoint trimEnd (s : string) : string :=
  match s with
  | EmptyString => EmptyString
  | String c rest =>
      match trimEnd rest with
      | EmptyString => if isWhiteSpace c then EmptyString else String c EmptyString
      | kept => String c kept
      end
  end.

Definition trim (s : string) : string := trimEnd (trimStart s).

(** ** Player management *)

Definition quote : string := String (ascii_of_nat 34) EmptyString.

(** [new Array(n).fill(0)]. *)
Definition zeroScores (n : nat) : list score := replicate n (Pts 0).

(** [addPlayerFromInput()], with [value] the content of the name input
    (the element exists: the handlers are only wired when it does).  The
    prompt and the list of players are redrawn from [playerNames]. *)
Definition addPlayerFromInput (value : string) (s : State) : State :=
  let name := trim value in
  if String.eqb name "" then setMsg "Please enter a name." s
  else
    let s1 := set_playerNames (playerNames s ++ [name]) s in
    let s2 := set_scores (zeroScores (length (playerNames s1))) s1 in
    let s3 := set_playerIndexCounter (length (playerNames s2) + 1) s2 in
    setMsg ("Added " ++ quote ++ name ++ quote ++ ". Enter Player "
            ++ pretty (playerIndexCounter s3) ++ " or continue.") s3.

(** [removePlayerAt(index)]; [splice(index, 1)] removes nothing when
    [index] is past the end. *)
Definition removePlayerAt (index : nat) (s : State) : State :=
  let s1 := set_playerNames (delete index (playerNames s)) s in
  let s2 := set_scores (zeroScores (length (playerNames s1))) s1 in
  let s3 := set_playerIndexCounter (length (playerNames s2) + 1) s2 in
  setMsg "Player removed." s3.

(** ** Difficulty filter and shuffle *)

Definition easyOrUntagged (q : Question) : bool :=
  negb (truthy (difficulty q)) || strictEqStr (difficulty q) "easy".

Definition taggedHard (q : Question) : bool :=
  strictEqStr (difficulty q) "hard".

(** The [pool] of [applyDifficultyFilter] as it stands just before
    [shuffleArray(pool)]. *)
Definition difficultyPool (chosen : string) (qs : list Question)
    : list Question :=
  let pool :=
    if String.eqb chosen "easy" then List.filter easyOrUntagged qs
    else
      let hardOnly := List.filter taggedHard qs in
      if negb (length hardOnly =? 0) then hardOnly else qs in
  if length pool =? 0 then qs else pool.

(** One result of [Math.random()], a number in [0, 1): the pair [(a, b)]
    stands for [a / (a + b + 1)].  The product below is exact; the rounding
    of the floating-point multiplication is not modelled, but every index
    [j <= i] that the loop of [shuffleArray] can pick is the floor of some
    draw (lemma [floorTimes_onto]). *)
Definition draw : Type := nat * nat.

(** [Math.floor(r * n)]. *)
Definition floorTimes (r : draw) (n : nat) : nat :=
  (fst r * n) / (fst r + snd r + 1).

(** The successive results of [Math.random()], by call number. *)
Definition randomness : Type := nat -> draw.

(** [[arr[i], arr[j]] = [arr[j], arr[i]]].  The loop of [shuffleArray] only
    calls it with [j <= i < arr.length] (lemma [floorTimes_lt]), where both
    reads are defined; outside that range the array is left alone here. *)
Definition swap {A} (i j : nat) (arr : list A) : list A :=
  match arr !! i, arr !! j with
  | Some x, Some y => <[j := x]> (<[i := y]> arr)
  | _, _ => arr
  end.

(** The [for] loop of [shuffleArray] from index [i] down to 1; [call] counts
    the calls of [Math.random()] made so far. *)
Fixpoint shuffleLoop {A} (rnd : randomness) (call i : nat) (arr : list A)
    : list A :=
  match i with
  | 0 => arr
  | S i' =>
      let j := floorTimes (rnd call) (i + 1) in
      shuffleLoop rnd (S call) i' (swap i j arr)
  end.

Definition shuffleArray {A} (rnd : randomness) (arr : list A) : list A :=
  shuffleLoop rnd 0 (length arr - 1) arr.

Definition applyDifficultyFilter (rnd : randomness) (s : State) : State :=
  let pool := difficultyPool (chosenDifficulty s) (backupQuestions s) in
  let s1 := set_backupQuestions (shuffleArray rnd pool) s in
  let s2 := set_currentQuestion 0 s1 in
  let s3 := set_currentPlayer 0 s2 in
  set_scores (zeroScores (length (playerNames s3))) s3.

(** ** Timer *)

(** [setInterval] hands out fresh positive handles; [clearInterval]
    unschedules the interval with the given handle. *)
Definition clearInterval (id : nat) (s : State) : State :=
  set_liveIntervals (List.filter (fun k => negb (k =? id)) (liveIntervals s)) s.

Definition clearTimer (s : State) : State :=
  match questionTimerId s with
  | Some (S n) => set_questionTimerId None (clearInterval (S n) s)
  | Some 0 | None => s          (* a falsy handle: the [if] is not taken *)
  end.

Definition startTimer (totalSeconds : Z) (s : State) : State :=
  let s1 := set_questionTimeLeft totalSeconds s in
  let id := nextIntervalId s1 in
  let s2 := set_liveIntervals (liveIntervals s1 ++ [id]) s1 in
  let s3 := set_nextIntervalId (S id) s2 in
  set_questionTimerId (Some id) s3.

(** ** Quiz flow *)

Definition endGame (s : State) : State :=
  setSection Results (clearTimer s).

Definition renderQuestion (s : State) : State :=
  if length (backupQuestions s) <=? currentQuestion s then endGame s
  else
    let s1 := clearTimer s in
    let secondsForThisQuestion :=
      if String.eqb (chosenDifficulty s1) "hard"
      then HARD_MODE_TIMER_SECONDS
      else EASY_MODE_TIMER_SECONDS in
    startTimer secondsForThisQuestion s1.

Definition showQuiz (s : State) : State :=
  renderQuestion (setSection Quiz s).

Definition nextTurn (s : State) : State :=
  let s1 := set_currentPlayer (currentPlayer s + 1) s in
  let s2 :=
    if length (playerNames s1) <=? currentPlayer s1
    then set_currentQuestion (currentQuestion s1 + 1) (set_currentPlayer 0 s1)
    else s1 in
  if length (backupQuestions s2) <=? currentQuestion s2 then endGame s2
  else renderQuestion s2.

(** [scores[i]++]: past the end the array grows, with holes up to [i]. *)
Definition incrementAt (i : nat) (sc : list score) : list score :=
  match sc !! i with
  | Some (Pts n) => <[i := Pts (S n)]> sc
  | Some _ => <[i := NaN]> sc
  | None => sc ++ replicate (i - length sc) Hole ++ [NaN]
  end.

(** [onAnswer(selected)]; reading [.answer] of a missing question throws
    before anything is written. *)
Definition onAnswer (selected : jsval) (s : State) : result State :=
  match backupQuestions s !! currentQuestion s with
  | None => throw TypeError
  | Some questionObject =>
      let correct := answer questionObject in
      let isCorrect := strictEqStr selected correct in
      let s1 :=
        set_answersLog
          (answersLog s ++
             [ mkLogEntry (currentPlayer s)
                 (playerNames s !! currentPlayer s)
                 (currentQuestion s + 1)
                 (questionItem questionObject)
                 (options questionObject)
                 selected correct isCorrect ]) s in
      let s2 :=
        if isCorrect
        then set_scores (incrementAt (currentPlayer s1) (scores s1)) s1
        else s1 in
      ok (nextTurn s2)
  end.

(** The callback that [startTimer] schedules every second. *)
Definition timerCallback (s : State) : State :=
  let s1 := set_questionTimeLeft (questionTimeLeft s - 1) s in
  if (questionTimeLeft s1 <=? 0)%Z then nextTurn (clearTimer s1)
  else s1.

(** ** Events *)

(** The state once the [DOMContentLoaded] handler has run: questions
    loaded, handlers wired, the name section shown. *)
Definition init (fetch : network) : State :=
  {| backupQuestions := loadQuestions fetch builtinQuestions;
     playerNames := [];
     scores := [];
     currentPlayer := 0;
     currentQuestion := 0;
     chosenDifficulty := "easy";
     playerIndexCounter := 1;
     answersLog := [];
     questionTimerId := None;
     questionTimeLeft := 0;
     visible := SetupNames;
     setupMsg := "";
     liveIntervals := [];
     nextIntervalId := 1 |}.

Inductive Event : Type :=
| AddPlayer (value : string)          (* add button, or Enter in the input *)
| RemovePlayer (index : nat)          (* the cross next to a listed player *)
| Continue                            (* continueToDifficultyBtn *)
| BackToNames                         (* backToNamesBtn *)
| ChooseDifficulty (value : string)   (* a difficulty radio *)
| StartGame (rnd : randomness)        (* startGameBtn *)
| Answer (selected : jsval)           (* an option button *)
| Tick (id : nat)                     (* the interval [id] fires *)
| PlayAgain (fetch : network).        (* playAgainBtn: the page reloads *)

Definition continueToDifficulty (s : State) : State :=
  if length (playerNames s) <? 1
  then setMsg "Add at least one player before continuing." s
  else setSection SetupDifficulty s.

Definition handle (e : Event) (s : State) : State :=
  match e with
  | AddPlayer value => addPlayerFromInput value s
  | RemovePlayer index => removePlayerAt index s
  | Continue => continueToDifficulty s
  | BackToNames => setSection SetupNames s
  | ChooseDifficulty value => set_chosenDifficulty value s
  | StartGame rnd => showQuiz (applyDifficultyFilter rnd s)
  | Answer selected =>
      match onAnswer selected s with
      | inr s' => s'
      | inl _ => s
      end
  | Tick _ => timerCallback s
  | PlayAgain fetch => init fetch
  end.

Definition screen_eqb (a b : screen) : bool :=
  match a, b with
  | SetupNames, SetupNames | SetupDifficulty, SetupDifficulty
  | Quiz, Quiz | Results, Results => true
  | _, _ => false
  end.

(** An event can occur when its control is in the visible section (a remove
    button exists for each listed player) or, for a tick, when its interval
    is still scheduled. *)
Definition enabled (s : State) (e : Event) : bool :=
  match e with
  | AddPlayer _ | Continue => screen_eqb (visible s) SetupNames
  | RemovePlayer index =>
      screen_eqb (visible s) SetupNames && (index <? length (playerNames s))
  | BackToNames | ChooseDifficulty _ | StartGame _ =>
      screen_eqb (visible s) SetupDifficulty
  | Answer _ => screen_eqb (visible s) Quiz
  | Tick id => existsb (Nat.eqb id) (liveIntervals s)
  | PlayAgain _ => screen_eqb (visible s) Results
  end.

Inductive reachable : State -> Prop :=
| reach_init fetch : reachable (init fetch)
| reach_step s e : reachable s -> enabled s e = true -> reachable (handle e s).

(** Run a list of events; one that is not enabled does not occur. *)
Fixpoint run (es : list Event) (s : State) : State :=
  match es with
  | [] => s
  | e :: rest => run rest (if enabled s e then handle e s else s)
  end.

(** ** Properties stated about the program *)

(** *** Question store *)

Definition field (k : string) (q : jsval) : option jsval :=
  match q with
  | JObj fields => assoc k fields
  | _ => None
  end.

Definition hasStringField (k : string) (q : jsval) : bool :=
  match field k q with
  | Some (JStr _) => true
  | _ => false
  end.

Definition hasArrayField (k : string) (q : jsval) : bool :=
  match field k q with
  | Some (JArr _) => true
  | _ => false
  end.

(** An entry that lacks a string prompt, a string answer or an options
    array. *)
Definition malformed (q : jsval) : bool :=
  negb (hasStringField "questionItem" q)
  || negb (hasStringField "answer" q)
  || negb (hasArrayField "options" q).

(** A stored difficulty is either absent or a truthy value: the built-in
    entries carry "easy" or "hard", and the loader replaces a falsy value by
    [undefined]. *)
Definition tagNormal (q : Question) : bool :=
  match difficulty q with
  | JUndef => true
  | d => truthy d
  end.

(** *** Difficulty filter, in the words of the specification *)

Definition tagged (tag : string) (q : Question) : bool :=
  match difficulty q with
  | JStr t => String.eqb t tag
  | _ => false
  end.

Definition untagged (q : Question) : bool :=
  match difficulty q with
  | JUndef => true
  | _ => false
  end.

Definition orFullList (selected full : list Question) : list Question :=
  match selected with
  | [] => full
  | _ => selected
  end.

Definition specEasy (qs : list Question) : list Question :=
  orFullList (List.filter (fun q => tagged "easy" q || untagged q) qs) qs.

Definition specHard (qs : list Question) : list Question :=
  orFullList (List.filter (tagged "hard") qs) qs.

(** *** Session invariants *)

(** The invariant as the specification words it. *)
Definition statedInvariant (s : State) : Prop :=
  length (scores s) = length (playerNames s)
  /\ currentPlayer s < length (playerNames s)
  /\ currentQuestion s <= length (backupQuestions s)
  /\ (length (backupQuestions s) <= currentQuestion s -> visible s = Results).

(** The same with the player index bounded only when there is a player. *)
Definition sessionInvariant (s : State) : Prop :=
  length (scores s) = length (playerNames s)
  /\ (currentPlayer s < length (playerNames s)
      \/ (playerNames s = [] /\ currentPlayer s = 0))
  /\ currentQuestion s <= length (backupQuestions s)
  /\ (length (backupQuestions s) <= currentQuestion s -> visible s = Results).

(** The live intervals are exactly the one whose handle [questionTimerId]
    holds, if any. *)
Definition timerInv (s : State) : Prop :=
  0 < nextIntervalId s
  /\ liveIntervals s =
       match questionTimerId s with
       | Some (S n) => [S n]
       | _ => []
       end.

(** What holds in each section of the page. *)
Definition screenInv (s : State) : Prop :=
  match visible s with
  | SetupNames =>
      currentPlayer s = 0 /\ currentQuestion s = 0 /\ liveIntervals s = []
  | SetupDifficulty =>
      currentPlayer s = 0 /\ currentQuestion s = 0 /\ liveIntervals s = []
      /\ playerNames s <> []
  | Quiz =>
      currentPlayer s < length (playerNames s)
      /\ currentQuestion s < length (backupQuestions s)
      /\ (1 <= questionTimeLeft s)%Z
  | Results =>
      currentPlayer s = 0
      /\ currentQuestion s = length (backupQuestions s)
      /\ liveIntervals s = []
      /\ playerNames s <> []
  end.

Definition Inv (s : State) : Prop :=
  backupQuestions s <> []
  /\ Forall (fun q => tagNormal q = true) (backupQuestions s)
  /\ length (scores s) = length (playerNames s)
  /\ timerInv s
  /\ screenInv s.

(** *** Turns *)

(** The countdown reaches zero at the next tick. *)
Definition expires (s : State) : bool :=
  (questionTimeLeft s - 1 <=? 0)%Z.

(** [selected] is not the answer of the current question. *)
Definition wrongAnswer (s : State) (selected : jsval) : bool :=
  match backupQuestions s !! currentQuestion s with
  | Some q => negb (strictEqStr selected (answer q))
  | None => false
  end.

(** The timer's expiry moves the session exactly as a manual submission of
    [selected] would, answer history included. *)
Definition expiryLikeAnswer (s : State) (selected : jsval) : Prop :=
  exists sm,
    onAnswer selected s = inr sm
    /\ currentPlayer (timerCallback s) = currentPlayer sm
    /\ currentQuestion (timerCallback s) = currentQuestion sm
    /\ answersLog (timerCallback s) = answersLog sm.

Definition turnEvent (e : Event) : bool :=
  match e with
  | Answer _ | Tick _ => true
  | _ => false
  end.

(** A turn-advancing event: a manual answer, or the tick at which the
    countdown reaches zero. *)
Definition advances (s : State) (e : Event) : bool :=
  enabled s e &&
  match e with
  | Answer _ => true
  | Tick _ => expires s
  | _ => false
  end.

(** The number of turn-advancing events that occur while [es] runs. *)
Fixpoint turnsTaken (es : list Event) (s : State) : nat :=
  match es with
  | [] => 0
  | e :: rest =>
      (if advances s e then 1 else 0)
      + turnsTaken rest (if enabled s e then handle e s else s)
  end.

(** Turns completed so far, read off the two indices. *)
Definition progress (s : State) : nat :=
  currentQuestion s * length (playerNames s) + currentPlayer s.

(** *** Timer operations *)

Inductive timerOp : Type :=
| OpRender      (* renderQuestion() *)
| OpNextTurn    (* nextTurn() *)
| OpEndGame.    (* endGame() *)

Definition applyOp (o : timerOp) (s : State) : State :=
  match o with
  | OpRender => renderQuestion s
  | OpNextTurn => nextTurn s
  | OpEndGame => endGame s
  end.

Definition applyOps (ops : list timerOp) (s : State) : State :=
  fold_left (fun acc o => applyOp o acc) ops s.

(** An event that changes the roster: an add with a non-blank name, or a
    remove. *)
Definition rosterChange (e : Event) : bool :=
  match e with
  | AddPlayer value => negb (String.eqb (trim value) "")
  | RemovePlayer _ => true
  | _ => false
  end.

(** [s'] differs from [s] at most in the timer, the visible section and
    the message. *)
Definition sameSession (s s' : State) : Prop :=
  playerNames s' = playerNames s
  /\ backupQuestions s' = backupQuestions s
  /\ scores s' = scores s
  /\ answersLog s' = answersLog s
  /\ chosenDifficulty s' = chosenDifficulty s
  /\ currentPlayer s' = currentPlayer s
  /\ currentQuestion s' = currentQuestion s.

(** A game between its start and its results, with [n] players and a pool
    of [m] questions. *)
Definition playing (n m : nat) (s : State) : Prop :=
  Inv s
  /\ length (playerNames s) = n
  /\ length (backupQuestions s) = m
  /\ (visible s = Quiz \/ visible s = Results).

(** The entry [onAnswer(selected)] appends to the history. *)
Definition loggedAnswer (s : State) (selected : jsval) (q : Question)
    : LogEntry :=
  mkLogEntry (currentPlayer s) (playerNames s !! currentPlayer s)
    (currentQuestion s + 1) (questionItem q) (options q) selected (answer q)
    (strictEqStr selected (answer q)).

(** *** Sample inputs *)

Definition offline : network := fun _ => FetchRejected.

Definition someDraws : randomness := fun k => (k + 1, 2).

Definition twoPlayersSetup : State :=
  run [ AddPlayer " Ann "; AddPlayer "Bob"; Continue; ChooseDifficulty "hard" ]
      (init offline).

Definition twoPlayersPlaying : State :=
  handle (StartGame someDraws) twoPlayersSetup.

(** Fourteen ticks into the first question of a hard game. *)
Definition aboutToExpire : State :=
  run (repeat (Tick 1) 14) twoPlayersPlaying.

(** ** The results page *)

(** [`${scores[i]}`]: a number prints in decimal, a missing cell as
    "undefined". *)
Definition scoreText (c : option score) : string :=
  match c with
  | Some (Pts n) => pretty n
  | Some NaN => "NaN"
  | Some Hole | None => "undefined"
  end.

(** [scores[i] === 1]. *)
Definition isOne (c : option score) : bool :=
  match c with
  | Some (Pts 1) => true
  | _ => false
  end.

Definition scoreLine (name : string) (c : option score) : string :=
  name ++ ": " ++ scoreText c ++ " point" ++ (if isOne c then "" else "s").

(** [renderScores()]: the text of the paragraphs it appends to the
    scoreboard, in order. *)
Definition renderScores (s : State) : list string :=
  imap (fun i name => scoreLine name (scores s !! i)) (playerNames s).

(** ** Further properties *)

(** *** Loader *)

Definition nullish (v : jsval) : bool :=
  match v with
  | JUndef | JNull => true
  | _ => false
  end.

(** A fetch outcome that cannot yield questions: a rejected fetch, a
    non-success status, a body that does not parse, or a parsed value that
    is not an array. *)
Definition unusable (out : fetch_outcome) : bool :=
  match out with
  | FetchRejected => true
  | Response isOk body =>
      negb isOk
      || match body with
         | None => true
         | Some (JArr _) => false
         | Some _ => true
         end
  end.

(** [q] is what the loader stores for the fetched entry [v]. *)
Definition storedAs (v : jsval) (q : Question) : Prop :=
  field "questionItem" v = Some (JStr (questionItem q))
  /\ field "options" v = Some (JArr (options q))
  /\ field "answer" v = Some (JStr (answer q))
  /\ difficulty q =
       (let d := default JUndef (field "difficulty" v) in
        if truthy d then d else JUndef).

(** *** Scores and answer history *)

(** Logged answers of player [i], and the correct ones among them. *)
Definition countBy (i : nat) (log : list LogEntry) : nat :=
  length (List.filter (fun e => playerIndex e =? i) log).

Definition countCorrect (i : nat) (log : list LogEntry) : nat :=
  length (List.filter (fun e => (playerIndex e =? i) && isCorrect e) log).

(** The scores that a history accounts for, for [n] players. *)
Definition scoresOf (n : nat) (log : list LogEntry) : list score :=
  map (fun i => Pts (countCorrect i log)) (seq 0 n).

(** A history entry that agrees with the roster and the pool. *)
Definition entryOk (names : list string) (qs : list Question) (e : LogEntry)
    : Prop :=
  playerIndex e < length names
  /\ playerName e = names !! playerIndex e
  /\ 1 <= questionNumber e <= length qs
  /\ (exists q,
        qs !! (questionNumber e - 1) = Some q
        /\ question e = questionItem q
        /\ entryOptions e = options q
        /\ correctAnswer e = answer q)
  /\ isCorrect e = strictEqStr (selectedAnswer e) (correctAnswer e).

(** What the handlers keep true of the counter, the history, the scores
    and the interval, beyond [Inv]. *)
Definition gameInv (s : State) : Prop :=
  playerIndexCounter s = length (playerNames s) + 1
  /\ (visible s = SetupNames \/ visible s = SetupDifficulty ->
      answersLog s = [])
  /\ scores s = scoresOf (length (playerNames s)) (answersLog s)
  /\ Forall (entryOk (playerNames s) (backupQuestions s)) (answersLog s)
  /\ (forall i,
        countBy i (answersLog s)
        <= currentQuestion s + (if i <? currentPlayer s then 1 else 0))
  /\ (visible s = Quiz -> exists id, liveIntervals s = [id]).

Definition isAnswer (e : Event) : bool :=
  match e with
  | Answer _ => true
  | _ => false
  end.

(** The number of manual answers submitted while [es] runs. *)
Fixpoint answersIn (es : list Event) (s : State) : nat :=
  match es with
  | [] => 0
  | e :: rest =>
      (if enabled s e && isAnswer e then 1 else 0)
      + answersIn rest (if enabled s e then handle e s else s)
  end.

(** The countdown a freshly rendered question starts from. *)
Definition secondsFor (chosen : string) : Z :=
  if String.eqb chosen "hard" then HARD_MODE_TIMER_SECONDS
  else EASY_MODE_TIMER_SECONDS.

(** * Proofs *)

(** ** Question store *)

Section Loader.

Lemma malformed_rejected q :
  malformed q = true ->
  entryInvalid q = throw TypeError \/ entryInvalid q = ok true.
Proof.
  unfold malformed, hasStringField, hasArrayField, field, entryInvalid.
  destruct q as [| | b | z | str | items | fields]; simpl; auto.
  destruct (assoc "questionItem" fields) as [[]|]; simpl; auto;
    destruct (assoc "options" fields) as [[]|]; simpl; auto;
    destruct (assoc "answer" fields) as [[]|]; simpl; auto;
    discriminate.
Qed.

Lemma validateFrom_rejects data :
  existsb malformed data = true ->
  forall i, exists e, validateFrom i data = inl e.
Proof.
  induction data as [|q rest IH]; simpl; [discriminate|].
  intros Hbad i. apply orb_true_iff in Hbad as [Hq | Hrest].
  - destruct (malformed_rejected q Hq) as [-> | ->]; simpl; eauto.
  - destruct (entryInvalid q) as [e | [|]]; simpl; eauto.
Qed.

Lemma tryLoad_malformed isOk data :
  existsb malformed data = true ->
  tryLoad (Response isOk (Some (JArr data))) = None.
Proof.
  intros Hbad. unfold tryLoad, validateQuestions.
  destruct (validateFrom_rejects data Hbad 0) as [e ->].
  destruct isOk, (length data =? 0); reflexivity.
Qed.

Lemma storeEntry_tagNormal q stored :
  storeEntry q = Some stored -> tagNormal stored = true.
Proof.
  unfold storeEntry. destruct q as [| | | | | |fields]; try discriminate.
  destruct (assoc "questionItem" fields) as [[]|]; try discriminate.
  destruct (assoc "options" fields) as [[]|]; try discriminate.
  destruct (assoc "answer" fields) as [[]|]; try discriminate.
  intros [= <-]. unfold tagNormal; simpl.
  destruct (truthy _) eqn:Ht; [|reflexivity].
  destruct (default JUndef _); auto.
Qed.

(** Whatever the loader stores is a non-empty list of entries with
    normal tags. *)
Lemma tryLoad_stored out qs :
  tryLoad out = Some qs ->
  qs <> [] /\ Forall (fun q => tagNormal q = true) qs.
Proof.
  unfold tryLoad. destruct out as [|[] [[| | | | |items|]|]]; try discriminate.
  destruct (length items =? 0) eqn:Hlen; simpl; [discriminate|].
  destruct (validateQuestions items); [discriminate|].
  intros Hm. apply mapM_Some in Hm. split.
  - apply Nat.eqb_neq in Hlen. apply Forall2_length in Hm.
    destruct qs; [simpl in Hm; lia | discriminate].
  - clear Hlen. induction Hm; constructor; eauto using storeEntry_tagNormal.
Qed.

(** An entry that passes the test of [validateQuestions] is an object with
    the three fields, so it has a stored form. *)
Lemma entry_valid_stored q :
  entryInvalid q = ok false -> is_Some (storeEntry q).
Proof.
  unfold entryInvalid, storeEntry, getProp.
  destruct q as [| | b | z | str | items | fields]; simpl; try discriminate.
  destruct (assoc "questionItem" fields) as [[]|]; simpl; try discriminate;
    destruct (assoc "options" fields) as [[]|]; simpl; try discriminate;
    destruct (assoc "answer" fields) as [[]|]; simpl; try discriminate.
  eauto.
Qed.

Lemma validated_stored data :
  forall i, validateFrom i data = ok tt -> is_Some (mapM storeEntry data).
Proof.
  intros i Hv. apply mapM_is_Some_2. revert i Hv.
  induction data as [|q rest IH]; intros i Hv; constructor.
  - simpl in Hv. destruct (entryInvalid q) as [e|[|]] eqn:Hq; try discriminate.
    apply entry_valid_stored, Hq.
  - simpl in Hv. destruct (entryInvalid q) as [e|[|]]; try discriminate.
    eapply IH, Hv.
Qed.

(** A well-formed array replaces the store; a falsy difficulty is stored as
    [undefined]. *)
Lemma tryLoad_well_formed :
  tryLoad
    (Response true
       (Some (JArr [ JObj [ ("questionItem", JStr "2 + 2?");
                            ("options", JArr [ JStr "3"; JStr "4" ]);
                            ("answer", JStr "4");
                            ("difficulty", JStr "") ];
                     JObj [ ("questionItem", JStr "Capital?");
                            ("options", JArr [ JStr "Thimphu"; JStr "Paro" ]);
                            ("answer", JStr "Thimphu");
                            ("difficulty", JStr "hard") ] ])))
  = Some [ mkQuestion "2 + 2?" [ JStr "3"; JStr "4" ] "4" JUndef;
           mkQuestion "Capital?" [ JStr "Thimphu"; JStr "Paro" ] "Thimphu"
             (JStr "hard") ].
Proof. reflexivity. Qed.

Lemma builtin_tagNormal :
  Forall (fun q => tagNormal q = true) builtinQuestions.
Proof. repeat constructor. Qed.

Lemma loadQuestions_stored fetch :
  loadQuestions fetch builtinQuestions <> []
  /\ Forall (fun q => tagNormal q = true) (loadQuestions fetch builtinQuestions).
Proof.
  unfold loadQuestions, QUESTIONS_SOURCES; simpl.
  destruct (tryLoad (fetch "./questions.json")) eqn:Hl.
  - eauto using tryLoad_stored.
  - split; [discriminate | apply builtin_tagNormal].
Qed.

End Loader.

(** C4. If some entry of a fetched array lacks a string [questionItem], a
    string [answer] or an [options] array, the loader rejects the whole
    array: the question store is left as it was, and at start-up that is
    the built-in set. *)
Theorem malformed_entry_rejects_fetched_set :
  forall (fetch : network) (isOk : bool) (data : list jsval)
         (backup : list Question),
    fetch "./questions.json" = Response isOk (Some (JArr data)) ->
    existsb malformed data = true ->
    loadQuestions fetch backup = backup
    /\ backupQuestions (init fetch) = builtinQuestions.
Proof.
  intros fetch isOk data backup Hfetch Hbad.
  unfold init, loadQuestions, QUESTIONS_SOURCES; simpl.
  rewrite Hfetch, (tryLoad_malformed isOk data Hbad). auto.
Qed.

Lemma malformed_entry_rejects_fetched_set_witness :
  let good := JObj [ ("questionItem", JStr "2 + 2?");
                     ("options", JArr [ JStr "3"; JStr "4" ]);
                     ("answer", JStr "4") ] in
  let bad := JObj [ ("questionItem", JStr "Capital?"); ("answer", JStr "Thimphu") ] in
  let fetch : network := fun _ => Response true (Some (JArr [ good; bad ])) in
  loadQuestions fetch builtinQuestions = builtinQuestions
  /\ backupQuestions (init fetch) = builtinQuestions.
Proof.
  intros good bad fetch.
  apply (malformed_entry_rejects_fetched_set fetch true [ good; bad ]);
    reflexivity.
Defined.

(** C10. A response that parses to the empty array does not replace the
    question store: the built-in questions stay in use. *)
Theorem empty_array_keeps_fallback :
  forall (fetch : network) (isOk : bool) (backup : list Question),
    fetch "./questions.json" = Response isOk (Some (JArr [])) ->
    loadQuestions fetch backup = backup
    /\ backupQuestions (init fetch) = builtinQuestions.
Proof.
  intros fetch isOk backup Hfetch.
  unfold init, loadQuestions, QUESTIONS_SOURCES; simpl.
  rewrite Hfetch. destruct isOk; auto.
Qed.

Lemma empty_array_keeps_fallback_witness :
  let fetch : network := fun _ => Response true (Some (JArr [])) in
  loadQuestions fetch builtinQuestions = builtinQuestions
  /\ backupQuestions (init fetch) = builtinQuestions.
Proof.
  intros fetch. apply (empty_array_keeps_fallback fetch true); reflexivity.
Defined.

(** ** Player management *)

(** C8. A name input whose trimmed value is empty is rejected: the message
    under the input asks for a name, and the players, the scores and the
    two indices are exactly what they were. *)
Theorem blank_name_rejected :
  forall (value : string) (s : State),
    trim value = "" ->
    let s' := addPlayerFromInput value s in
    s' = set_setupMsg "Please enter a name." s
    /\ setupMsg s' = "Please enter a name."
    /\ playerNames s' = playerNames s
    /\ scores s' = scores s
    /\ currentPlayer s' = currentPlayer s
    /\ currentQuestion s' = currentQuestion s.
Proof.
  intros value s Hblank. unfold addPlayerFromInput.
  rewrite Hblank. simpl. repeat split.
Qed.

Lemma blank_name_rejected_witness :
  let s' := addPlayerFromInput "   " twoPlayersPlaying in
  s' = set_setupMsg "Please enter a name." twoPlayersPlaying
  /\ setupMsg s' = "Please enter a name."
  /\ playerNames s' = playerNames twoPlayersPlaying
  /\ scores s' = scores twoPlayersPlaying
  /\ currentPlayer s' = currentPlayer twoPlayersPlaying
  /\ currentQuestion s' = currentQuestion twoPlayersPlaying.
Proof.
  apply (blank_name_rejected "   " twoPlayersPlaying). reflexivity.
Defined.

Lemma zeroScores_all_zero n : Forall (fun c => c = Pts 0) (zeroScores n).
Proof. apply Forall_replicate. reflexivity. Qed.

(** C9. After an add with a non-blank name, and after any remove, the
    scores array is a fresh array of zeros, one per remaining player:
    whatever had been scored before is gone. *)
Theorem roster_change_resets_scores :
  forall (e : Event) (s : State),
    rosterChange e = true ->
    scores (handle e s) = zeroScores (length (playerNames (handle e s)))
    /\ Forall (fun c => c = Pts 0) (scores (handle e s)).
Proof.
  intros e s Hchange.
  assert (scores (handle e s) = zeroScores (length (playerNames (handle e s))))
    as Heq.
  { destruct e; try discriminate; simpl in *.
    - unfold addPlayerFromInput.
      destruct (String.eqb (trim value) ""); [discriminate | reflexivity].
    - reflexivity. }
  split; [exact Heq|]. rewrite Heq. apply zeroScores_all_zero.
Qed.

Lemma roster_change_resets_scores_witness :
  let s := set_scores [ Pts 3; Pts 1 ] twoPlayersSetup in
  (scores (handle (RemovePlayer 0) s)
     = zeroScores (length (playerNames (handle (RemovePlayer 0) s)))
   /\ Forall (fun c => c = Pts 0) (scores (handle (RemovePlayer 0) s)))
  /\ (scores (handle (AddPlayer "Cy") s)
        = zeroScores (length (playerNames (handle (AddPlayer "Cy") s)))
      /\ Forall (fun c => c = Pts 0) (scores (handle (AddPlayer "Cy") s))).
Proof.
  intros s. split.
  - apply (roster_change_resets_scores (RemovePlayer 0) s). reflexivity.
  - apply (roster_change_resets_scores (AddPlayer "Cy") s). reflexivity.
Defined.

(** ** Shuffle *)

Section Shuffle.

Context {A : Type}.
Implicit Types arr : list A.

(** [Math.floor(r * n)] is an index below [n]. *)
Lemma floorTimes_lt (r : draw) (n : nat) : 0 < n -> floorTimes r n < n.
Proof.
  intros Hn. unfold floorTimes.
  apply Nat.Div0.div_lt_upper_bound. nia.
Qed.

(** Every index below [n] is the floor of some draw times [n]: the draws
    cover all the choices the loop can make. *)
Lemma floorTimes_onto (j n : nat) : j < n -> floorTimes (j, n - 1 - j) n = j.
Proof.
  intros Hj. unfold floorTimes. simpl.
  replace (j + (n - 1 - j) + 1) with n by lia.
  apply Nat.div_mul. lia.
Qed.

Lemma swap_length i j arr : length (swap i j arr) = length arr.
Proof.
  unfold swap. destruct (arr !! i), (arr !! j); auto.
  by rewrite !length_insert.
Qed.

(** Exchanging two cells is the permutation induced by the transposition
    of their indices. *)
Lemma swap_perm i j arr : swap i j arr ≡ₚ arr.
Proof.
  unfold swap.
  destruct (arr !! i) as [x|] eqn:Hi; [|done].
  destruct (arr !! j) as [y|] eqn:Hj; [|done].
  pose proof (lookup_lt_Some _ _ _ Hi) as Hli.
  pose proof (lookup_lt_Some _ _ _ Hj) as Hlj.
  apply Permutation_inj. split; [by rewrite !length_insert|].
  exists (fun k => if decide (k = i) then j else if decide (k = j) then i else k).
  split.
  - intros a b. repeat case_decide; intros; subst; congruence.
  - intros k. destruct (decide (k = j)) as [->|Hkj].
    + rewrite list_lookup_insert_eq by (by rewrite length_insert).
      case_decide; subst; congruence.
    + rewrite list_lookup_insert_ne by done.
      destruct (decide (k = i)) as [->|Hki].
      * by rewrite list_lookup_insert_eq.
      * by rewrite list_lookup_insert_ne.
Qed.

Lemma shuffleLoop_perm rnd i :
  forall call arr, shuffleLoop rnd call i arr ≡ₚ arr.
Proof.
  induction i as [|i IH]; intros call arr; simpl; [done|].
  rewrite IH. apply swap_perm.
Qed.

Lemma shuffleLoop_length rnd i call arr :
  length (shuffleLoop rnd call i arr) = length arr.
Proof. apply Permutation_length, shuffleLoop_perm. Qed.

End Shuffle.

(** C6. Whatever [Math.random()] returns, [shuffleArray] leaves a
    permutation of the array it was given. *)
Theorem shuffleArray_permutation :
  forall (A : Type) (rnd : randomness) (arr : list A),
    shuffleArray rnd arr ≡ₚ arr.
Proof. intros A rnd arr. apply shuffleLoop_perm. Qed.

(** The loop of [shuffleArray] exchanges cells [j <= i < arr.length], where
    [swap] reads two defined cells. *)
Lemma swap_in_range {A} (rnd : randomness) (call i : nat) (arr : list A) :
  S i < length arr ->
  let j := floorTimes (rnd call) (S i + 1) in
  j <= S i /\ is_Some (arr !! S i) /\ is_Some (arr !! j).
Proof.
  intros Hi j.
  assert (j < S i + 1) by (apply floorTimes_lt; lia).
  repeat split; [lia | |]; apply lookup_lt_is_Some; lia.
Qed.

(** ** Difficulty filter *)

Section Filter.

Implicit Types qs pool : list Question.

Lemma orFullList_length pool qs :
  (if length pool =? 0 then qs else pool) = orFullList pool qs.
Proof. by destruct pool. Qed.

Lemma easyOrUntagged_spec q :
  tagNormal q = true -> easyOrUntagged q = tagged "easy" q || untagged q.
Proof.
  unfold tagNormal, easyOrUntagged, tagged, untagged, strictEqStr.
  destruct (difficulty q); simpl; intros Hn; rewrite ?Hn, ?orb_false_r;
    try reflexivity; discriminate.
Qed.

Lemma easy_filter_spec qs :
  Forall (fun q => tagNormal q = true) qs ->
  List.filter easyOrUntagged qs
  = List.filter (fun q => tagged "easy" q || untagged q) qs.
Proof.
  intros Hn. apply List.filter_ext_in. intros q Hq.
  apply easyOrUntagged_spec. rewrite List.Forall_forall in Hn. auto.
Qed.

Lemma difficultyPool_easy qs :
  Forall (fun q => tagNormal q = true) qs ->
  difficultyPool "easy" qs = specEasy qs.
Proof.
  intros Hn. unfold difficultyPool, specEasy. simpl.
  by rewrite orFullList_length, easy_filter_spec.
Qed.

Lemma difficultyPool_hard qs : difficultyPool "hard" qs = specHard qs.
Proof.
  unfold difficultyPool, specHard. simpl.
  change (List.filter taggedHard qs) with (List.filter (tagged "hard") qs).
  destruct (List.filter (tagged "hard") qs) eqn:Hf; simpl.
  - by destruct qs.
  - reflexivity.
Qed.

Lemma difficultyPool_sub chosen qs q :
  q ∈ difficultyPool chosen qs -> q ∈ qs.
Proof.
  unfold difficultyPool.
  destruct (String.eqb chosen "easy").
  - destruct (length (List.filter easyOrUntagged qs) =? 0); [done|].
    rewrite list_elem_of_In, List.filter_In, <- list_elem_of_In. tauto.
  - destruct (List.filter taggedHard qs) as [|h hs] eqn:Hf; simpl.
    + by destruct qs.
    + rewrite <- Hf, list_elem_of_In, List.filter_In, <- list_elem_of_In. tauto.
Qed.

Lemma difficultyPool_nonempty chosen qs :
  qs <> [] -> difficultyPool chosen qs <> [].
Proof.
  intros Hne. unfold difficultyPool.
  destruct (String.eqb chosen "easy").
  - destruct (List.filter easyOrUntagged qs); simpl; [exact Hne | discriminate].
  - destruct (List.filter taggedHard qs); simpl.
    + by destruct qs.
    + discriminate.
Qed.

End Filter.

(** C5. On a question list whose tags are normal (as every stored list is):
    for "easy" the filter keeps exactly the questions tagged easy or
    untagged; for "hard" exactly those tagged hard; in each case an empty
    selection is replaced by the full list, so the pool of a non-empty
    list is never empty.  [applyDifficultyFilter] stores a permutation of
    that pool. *)
Theorem difficulty_filter_selects :
  forall (qs : list Question),
    Forall (fun q => tagNormal q = true) qs ->
    difficultyPool "easy" qs = specEasy qs
    /\ difficultyPool "hard" qs = specHard qs
    /\ (forall chosen, qs <> [] -> difficultyPool chosen qs <> [])
    /\ (forall rnd s,
          backupQuestions s = qs ->
          backupQuestions (applyDifficultyFilter rnd s)
            ≡ₚ difficultyPool (chosenDifficulty s) qs).
Proof.
  intros qs Hn. split; [|split; [|split]].
  - by apply difficultyPool_easy.
  - apply difficultyPool_hard.
  - intros chosen. apply difficultyPool_nonempty.
  - intros rnd s <-. simpl. apply shuffleLoop_perm.
Qed.

Lemma difficulty_filter_selects_witness :
  difficultyPool "easy" builtinQuestions = specEasy builtinQuestions
  /\ difficultyPool "hard" builtinQuestions = specHard builtinQuestions
  /\ (forall chosen,
        builtinQuestions <> [] -> difficultyPool chosen builtinQuestions <> [])
  /\ (forall rnd s,
        backupQuestions s = builtinQuestions ->
        backupQuestions (applyDifficultyFilter rnd s)
          ≡ₚ difficultyPool (chosenDifficulty s) builtinQuestions).
Proof.
  apply (difficulty_filter_selects builtinQuestions).
  repeat constructor.
Defined.

(** ** Timer and turn engine *)

Section Engine.

Implicit Types s : State.

Lemma clearTimer_spec s :
  timerInv s ->
  timerInv (clearTimer s) /\ liveIntervals (clearTimer s) = [].
Proof.
  unfold timerInv, clearTimer.
  destruct (questionTimerId s) as [[|id]|] eqn:Hid; intros [Hn Hl];
    simpl; rewrite ?Hid, ?Hl; simpl; rewrite ?Nat.eqb_refl; auto.
Qed.

Lemma clearTimer_frame s :
  sameSession s (clearTimer s)
  /\ visible (clearTimer s) = visible s
  /\ questionTimeLeft (clearTimer s) = questionTimeLeft s
  /\ nextIntervalId (clearTimer s) = nextIntervalId s.
Proof.
  unfold sameSession, clearTimer.
  destruct (questionTimerId s) as [[|id]|]; simpl; auto 12.
Qed.

Lemma endGame_spec s :
  timerInv s ->
  timerInv (endGame s)
  /\ liveIntervals (endGame s) = []
  /\ visible (endGame s) = Results.
Proof.
  intros Ht. destruct (clearTimer_spec s Ht) as [Hinv Hlive].
  unfold endGame, setSection, timerInv in *; simpl. auto.
Qed.

Lemma endGame_frame s : sameSession s (endGame s).
Proof. apply (clearTimer_frame s). Qed.

Lemma renderQuestion_spec s :
  timerInv s ->
  timerInv (renderQuestion s)
  /\ (if length (backupQuestions s) <=? currentQuestion s
      then visible (renderQuestion s) = Results
           /\ liveIntervals (renderQuestion s) = []
      else visible (renderQuestion s) = visible s
           /\ liveIntervals (renderQuestion s) = [nextIntervalId s]
           /\ (1 <= questionTimeLeft (renderQuestion s))%Z).
Proof.
  intros Ht. unfold renderQuestion.
  destruct (length (backupQuestions s) <=? currentQuestion s).
  - destruct (endGame_spec s Ht) as (? & ? & ?). auto.
  - destruct (clearTimer_spec s Ht) as [[Hn _] Hlive].
    destruct (clearTimer_frame s) as (_ & Hvis & _ & Hid).
    unfold startTimer, timerInv; simpl.
    rewrite Hlive, Hid in *. simpl.
    destruct (nextIntervalId s) eqn:Hnid; [lia|].
    repeat split; try lia; try tauto.
    destruct (String.eqb _ _); cbv; discriminate.
Qed.

Lemma renderQuestion_frame s : sameSession s (renderQuestion s).
Proof.
  unfold renderQuestion.
  destruct (length (backupQuestions s) <=? currentQuestion s).
  - apply endGame_frame.
  - apply (clearTimer_frame s).
Qed.

(** [nextTurn] moves the two indices, touches nothing else of the session,
    and leaves either the results section with no interval, or the same
    section with a fresh countdown. *)
Lemma nextTurn_spec s :
  timerInv s ->
  let s' := nextTurn s in
  let wrap := length (playerNames s) <=? currentPlayer s + 1 in
  playerNames s' = playerNames s
  /\ backupQuestions s' = backupQuestions s
  /\ scores s' = scores s
  /\ answersLog s' = answersLog s
  /\ chosenDifficulty s' = chosenDifficulty s
  /\ currentPlayer s' = (if wrap then 0 else currentPlayer s + 1)
  /\ currentQuestion s' =
       (if wrap then currentQuestion s + 1 else currentQuestion s)
  /\ timerInv s'
  /\ (if length (backupQuestions s) <=? currentQuestion s'
      then visible s' = Results /\ liveIntervals s' = []
      else visible s' = visible s /\ (1 <= questionTimeLeft s')%Z
           /\ liveIntervals s' = [nextIntervalId s]).
Proof.
  intros Ht s' wrap. subst s'. unfold nextTurn. cbv zeta.
  set (s1 := set_currentPlayer (currentPlayer s + 1) s).
  change (length (playerNames s1) <=? currentPlayer s1) with wrap.
  set (s2 := if wrap then _ else s1).
  assert (Hs2 : sameSession s (set_currentQuestion (currentQuestion s)
                                  (set_currentPlayer (currentPlayer s) s2))
                /\ currentPlayer s2 = (if wrap then 0 else currentPlayer s + 1)
                /\ currentQuestion s2 =
                     (if wrap then currentQuestion s + 1 else currentQuestion s)
                /\ timerInv s2 /\ visible s2 = visible s
                /\ nextIntervalId s2 = nextIntervalId s).
  { subst s2 s1. unfold sameSession. destruct wrap; simpl; repeat split; apply Ht. }
  destruct Hs2
    as ((Hns & Hqs & Hsc & Hlg & Hcd & _ & _) & Hcp & Hcq & Ht2 & Hvis & Hnid).
  simpl in Hns, Hqs, Hsc, Hlg, Hcd.
  clearbody s2. clear s1.
  pose proof (renderQuestion_spec s2 Ht2) as [Htr Hr].
  pose proof (renderQuestion_frame s2) as (Hns' & Hqs' & Hsc' & Hlg' & Hcd' & Hcp' & Hcq').
  pose proof (endGame_spec s2 Ht2) as (Hte & Hle & Hve).
  pose proof (endGame_frame s2) as (Hns'' & Hqs'' & Hsc'' & Hlg'' & Hcd'' & Hcp'' & Hcq'').
  rewrite Hqs in *.
  destruct (length (backupQuestions s) <=? currentQuestion s2) eqn:Hend.
  - rewrite Hns'', Hqs'', Hsc'', Hlg'', Hcd'', Hcp'', Hcq'', Hend.
    repeat match goal with |- _ /\ _ => split end; auto; congruence.
  - rewrite Hns', Hqs', Hsc', Hlg', Hcd', Hcp', Hcq', Hend.
    destruct Hr as (Hv & Hlv & Htl).
    repeat match goal with |- _ /\ _ => split end; auto; congruence.
Qed.

Lemma timerInv_applyOp o s : timerInv s -> timerInv (applyOp o s).
Proof.
  intros Ht. destruct o; simpl.
  - apply renderQuestion_spec, Ht.
  - apply (nextTurn_spec s Ht).
  - apply endGame_spec, Ht.
Qed.

Lemma timerInv_applyOps ops : forall s, timerInv s -> timerInv (applyOps ops s).
Proof.
  unfold applyOps.
  induction ops as [|o ops IH]; intros s Ht; simpl; [exact Ht|].
  apply IH, timerInv_applyOp, Ht.
Qed.

Lemma timerInv_at_most_one s : timerInv s -> length (liveIntervals s) <= 1.
Proof.
  intros [_ ->]. destruct (questionTimerId s) as [[|n]|]; simpl; lia.
Qed.

Lemma incrementAt_length i (sc : list score) :
  i < length sc -> length (incrementAt i sc) = length sc.
Proof.
  intros Hi. unfold incrementAt.
  destruct (lookup_lt_is_Some_2 sc i Hi) as [c ->].
  destruct c; apply length_insert.
Qed.

End Engine.

(** ** The session invariant *)

Section Invariant.

Implicit Types s : State.

Lemma Inv_init fetch : Inv (init fetch).
Proof.
  destruct (loadQuestions_stored fetch) as [Hne Hnorm].
  unfold Inv, timerInv, screenInv; simpl. repeat split; auto.
Qed.

(** One call of [nextTurn] in the quiz section: one more turn is done, and
    the invariant holds again. *)
Lemma nextTurn_playing s :
  backupQuestions s <> [] ->
  Forall (fun q => tagNormal q = true) (backupQuestions s) ->
  length (scores s) = length (playerNames s) ->
  timerInv s ->
  visible s = Quiz ->
  currentPlayer s < length (playerNames s) ->
  currentQuestion s < length (backupQuestions s) ->
  let s' := nextTurn s in
  Inv s'
  /\ playerNames s' = playerNames s
  /\ backupQuestions s' = backupQuestions s
  /\ (visible s' = Quiz \/ visible s' = Results)
  /\ progress s' = progress s + 1.
Proof.
  intros Hne Hnorm Hlen Ht Hvis Hcp Hcq s'.
  destruct (nextTurn_spec s Ht)
    as (Hns & Hqs & Hsc & _ & _ & Hcp' & Hcq' & Ht' & Hend).
  fold s' in Hns, Hqs, Hsc, Hcp', Hcq', Ht', Hend.
  assert (Hscreen : screenInv s' /\ (visible s' = Quiz \/ visible s' = Results)).
  { unfold screenInv. rewrite Hns, Hqs.
    destruct (Nat.leb_spec (length (playerNames s)) (currentPlayer s + 1));
      destruct (Nat.leb_spec (length (backupQuestions s)) (currentQuestion s'));
      destruct Hend as [Hv Hrest]; rewrite Hv, ?Hvis;
      (split; [|auto]); repeat split; auto; try lia; try tauto.
    all: intros Hnil; rewrite Hnil in Hcp; simpl in Hcp; lia. }
  destruct Hscreen as [Hscreen Hv].
  unfold Inv.
  repeat match goal with |- _ /\ _ => split end; auto; try congruence.
  unfold progress. rewrite Hns, Hcp', Hcq'.
  destruct (Nat.leb_spec (length (playerNames s)) (currentPlayer s + 1)); nia.
Qed.

Lemma answer_playing s selected :
  Inv s ->
  visible s = Quiz ->
  exists s',
    onAnswer selected s = inr s'
    /\ Inv s'
    /\ playerNames s' = playerNames s
    /\ backupQuestions s' = backupQuestions s
    /\ (visible s' = Quiz \/ visible s' = Results)
    /\ progress s' = progress s + 1.
Proof.
  intros (Hne & Hnorm & Hlen & Ht & Hscr) Hvis.
  unfold screenInv in Hscr. rewrite Hvis in Hscr.
  destruct Hscr as (Hcp & Hcq & _).
  destruct (lookup_lt_is_Some_2 _ _ Hcq) as [q Hq].
  unfold onAnswer. rewrite Hq. cbv zeta.
  eexists; split; [reflexivity|].
  match goal with |- context [nextTurn ?st] => set (s2 := st) end.
  assert (Hs2 : playerNames s2 = playerNames s
                /\ backupQuestions s2 = backupQuestions s
                /\ currentPlayer s2 = currentPlayer s
                /\ currentQuestion s2 = currentQuestion s
                /\ visible s2 = visible s
                /\ length (scores s2) = length (scores s)
                /\ timerInv s2).
  { subst s2. destruct (strictEqStr selected (answer q)); simpl;
      repeat match goal with |- _ /\ _ => split end; auto.
    apply incrementAt_length. lia. }
  destruct Hs2 as (Hns & Hqs & Hp & Hc & Hv & Hsc & Ht2).
  clearbody s2.
  destruct (nextTurn_playing s2) as (HI & Hn' & Hq' & Hv' & Hpr);
    try congruence.
  repeat match goal with |- _ /\ _ => split end; auto; try congruence.
  rewrite Hpr. unfold progress. congruence.
Qed.

Lemma tick_playing s :
  Inv s ->
  visible s = Quiz ->
  let s' := timerCallback s in
  Inv s'
  /\ playerNames s' = playerNames s
  /\ backupQuestions s' = backupQuestions s
  /\ (visible s' = Quiz \/ visible s' = Results)
  /\ progress s' = progress s + (if expires s then 1 else 0).
Proof.
  intros (Hne & Hnorm & Hlen & Ht & Hscr) Hvis.
  unfold screenInv in Hscr. rewrite Hvis in Hscr.
  destruct Hscr as (Hcp & Hcq & Htl).
  unfold timerCallback, expires. cbv zeta.
  set (s1 := set_questionTimeLeft (questionTimeLeft s - 1) s).
  change (questionTimeLeft s1) with (questionTimeLeft s - 1)%Z.
  destruct (Z.leb_spec (questionTimeLeft s - 1) 0) as [Hz|Hz].
  - assert (Ht1 : timerInv s1) by exact Ht.
    destruct (clearTimer_spec s1 Ht1) as [Htc _].
    destruct (clearTimer_frame s1)
      as ((Hns & Hqs & Hsc & _ & _ & Hp & Hq) & Hv & _).
    simpl in Hns, Hqs, Hsc, Hp, Hq, Hv.
    destruct (nextTurn_playing (clearTimer s1)) as (HI & Hn' & Hq' & Hv' & Hpr);
      try congruence.
    repeat match goal with |- _ /\ _ => split end; auto; try congruence.
    rewrite Hpr. unfold progress. congruence.
  - unfold Inv, progress.
    repeat match goal with |- _ /\ _ => split end; simpl; auto; try lia.
    unfold screenInv; simpl. rewrite Hvis. repeat split; auto; lia.
Qed.

Lemma shuffle_tagNormal rnd (pool : list Question) :
  Forall (fun q => tagNormal q = true) pool ->
  Forall (fun q => tagNormal q = true) (shuffleArray rnd pool).
Proof.
  intros Hn. eapply Permutation_Forall; [|exact Hn].
  symmetry. apply shuffleLoop_perm.
Qed.

Lemma pool_tagNormal chosen (qs : list Question) :
  Forall (fun q => tagNormal q = true) qs ->
  Forall (fun q => tagNormal q = true) (difficultyPool chosen qs).
Proof.
  rewrite !Forall_forall. intros Hn q Hq.
  apply Hn, (difficultyPool_sub chosen), Hq.
Qed.

Lemma shuffle_nonempty {A} rnd (pool : list A) :
  pool <> [] -> shuffleArray rnd pool <> [].
Proof.
  intros Hne Hnil. apply Hne, Permutation_nil.
  rewrite <- Hnil. apply shuffleLoop_perm.
Qed.

(** Starting a game from the difficulty section. *)
Lemma start_playing rnd s :
  Inv s ->
  visible s = SetupDifficulty ->
  let s' := handle (StartGame rnd) s in
  Inv s'
  /\ visible s' = Quiz
  /\ currentPlayer s' = 0
  /\ currentQuestion s' = 0
  /\ playerNames s' = playerNames s.
Proof.
  intros (Hne & Hnorm & Hlen & Ht & Hscr) Hvis.
  unfold screenInv in Hscr. rewrite Hvis in Hscr.
  destruct Hscr as (_ & _ & _ & Hpl).
  simpl. unfold showQuiz.
  set (s1 := setSection Quiz (applyDifficultyFilter rnd s)).
  assert (Hq1 : backupQuestions s1
                = shuffleArray rnd
                    (difficultyPool (chosenDifficulty s) (backupQuestions s)))
    by reflexivity.
  assert (Hne1 : backupQuestions s1 <> []).
  { rewrite Hq1. apply shuffle_nonempty, difficultyPool_nonempty, Hne. }
  assert (Ht1 : timerInv s1) by exact Ht.
  destruct (renderQuestion_spec s1 Ht1) as [Htr Hr].
  destruct (renderQuestion_frame s1) as (Hns & Hqs & Hsc & _ & _ & Hcp & Hcq).
  change (currentQuestion s1) with 0 in *.
  change (currentPlayer s1) with 0 in *.
  change (playerNames s1) with (playerNames s) in *.
  change (visible s1) with Quiz in *.
  change (scores s1) with (zeroScores (length (playerNames s))) in *.
  destruct (Nat.leb_spec (length (backupQuestions s1)) 0) as [Hz|Hz].
  { destruct (backupQuestions s1); [congruence | simpl in Hz; lia]. }
  destruct Hr as (Hv & _ & Htl).
  unfold Inv, screenInv.
  rewrite Hv, Hns, Hqs, Hsc, Hcp, Hcq.
  repeat match goal with |- _ /\ _ => split end; auto.
  - rewrite Hq1. apply shuffle_tagNormal, pool_tagNormal, Hnorm.
  - unfold zeroScores. apply length_replicate.
  - destruct (playerNames s); [congruence | simpl; lia].
Qed.

Lemma screen_eqb_eq a b : screen_eqb a b = true -> a = b.
Proof. destruct a, b; simpl; congruence. Qed.

(** An interval is scheduled only while a question is on display. *)
Lemma live_in_quiz s id :
  Inv s -> existsb (Nat.eqb id) (liveIntervals s) = true -> visible s = Quiz.
Proof.
  intros (_ & _ & _ & _ & Hscr) Hlive. unfold screenInv in Hscr.
  destruct (visible s); auto;
    (assert (Hnil : liveIntervals s = []) by tauto);
    rewrite Hnil in Hlive; discriminate.
Qed.

Lemma Inv_setMsg text s : Inv s -> Inv (setMsg text s).
Proof. intros HI. exact HI. Qed.

Lemma Inv_roster names s :
  Inv s ->
  visible s = SetupNames ->
  forall n text,
    Inv (setMsg text
           (set_playerIndexCounter n
              (set_scores (zeroScores (length names))
                 (set_playerNames names s)))).
Proof.
  intros (Hne & Hnorm & Hlen & Ht & Hscr) Hvis n text.
  unfold screenInv in Hscr. rewrite Hvis in Hscr.
  unfold Inv, screenInv; simpl. rewrite Hvis.
  repeat match goal with |- _ /\ _ => split end; auto; try tauto.
  unfold zeroScores. apply length_replicate.
Qed.

Lemma Inv_step s e : Inv s -> enabled s e = true -> Inv (handle e s).
Proof.
  intros HI Hen. destruct e as [value|index| | |value|rnd|selected|id|fetch];
    simpl in Hen; simpl.
  - apply screen_eqb_eq in Hen. unfold addPlayerFromInput. cbv zeta.
    destruct (String.eqb (trim value) "").
    + apply Inv_setMsg, HI.
    + apply (Inv_roster _ s HI Hen).
  - apply andb_true_iff in Hen as [Hen _]. apply screen_eqb_eq in Hen.
    apply (Inv_roster _ s HI Hen).
  - apply screen_eqb_eq in Hen. unfold continueToDifficulty.
    destruct (Nat.ltb_spec (length (playerNames s)) 1) as [Hlt|Hge].
    + apply Inv_setMsg, HI.
    + destruct HI as (Hne & Hnorm & Hlen & Ht & Hscr).
      unfold screenInv in Hscr. rewrite Hen in Hscr.
      unfold Inv, screenInv; simpl.
      repeat match goal with |- _ /\ _ => split end; auto; try tauto.
      intros Hnil. rewrite Hnil in Hge. simpl in Hge. lia.
  - apply screen_eqb_eq in Hen.
    destruct HI as (Hne & Hnorm & Hlen & Ht & Hscr).
    unfold screenInv in Hscr. rewrite Hen in Hscr.
    unfold Inv, screenInv; simpl.
    repeat match goal with |- _ /\ _ => split end; auto; tauto.
  - exact HI.
  - apply screen_eqb_eq in Hen. apply (start_playing rnd s HI Hen).
  - apply screen_eqb_eq in Hen.
    destruct (answer_playing s selected HI Hen) as (s' & -> & HI' & _).
    exact HI'.
  - apply (tick_playing s HI (live_in_quiz s id HI Hen)).
  - apply Inv_init.
Qed.

Lemma reachable_Inv s : reachable s -> Inv s.
Proof.
  induction 1 as [fetch | s e _ IH Hen]; [apply Inv_init | by apply Inv_step].
Qed.

Lemma Inv_sessionInvariant s : Inv s -> sessionInvariant s.
Proof.
  intros (Hne & _ & Hlen & _ & Hscr).
  assert (0 < length (backupQuestions s))
    by (destruct (backupQuestions s); [congruence | simpl; lia]).
  unfold sessionInvariant, screenInv in *.
  destruct (visible s); split; auto; split;
    try (left; lia); try (intuition lia).
  - destruct (playerNames s) eqn:Hp; [right; intuition | left; simpl; lia].
  - left. destruct (playerNames s); [intuition congruence | simpl; lia].
  - left. destruct (playerNames s); [intuition congruence | simpl; lia].
Qed.

Lemma reachable_run es : forall s, reachable s -> reachable (run es s).
Proof.
  induction es as [|e es IH]; intros s Hr; simpl; [exact Hr|].
  apply IH. destruct (enabled s e) eqn:Hen; [by apply reach_step | exact Hr].
Qed.

(** The question store of a reachable state is never empty and carries
    normal tags. *)
Lemma reachable_store s :
  reachable s ->
  backupQuestions s <> []
  /\ Forall (fun q => tagNormal q = true) (backupQuestions s).
Proof. intros Hr. destruct (reachable_Inv s Hr) as (? & ? & _). auto. Qed.

Lemma twoPlayersSetup_reachable : reachable twoPlayersSetup.
Proof. apply reachable_run, reach_init. Qed.

Lemma twoPlayersPlaying_reachable : reachable twoPlayersPlaying.
Proof.
  apply reach_step; [apply twoPlayersSetup_reachable | reflexivity].
Qed.

Lemma aboutToExpire_reachable : reachable aboutToExpire.
Proof. apply reachable_run, twoPlayersPlaying_reachable. Qed.

End Invariant.

(** C1, as stated, fails in the state the page starts in: no player has
    been entered, so the player index 0 is not below the number of
    players. *)
Lemma statedInvariant_fails_initially :
  reachable (init offline)
  /\ playerNames (init offline) = []
  /\ currentPlayer (init offline) = 0
  /\ ~ statedInvariant (init offline).
Proof.
  split; [apply reach_init|]. split; [reflexivity|]. split; [reflexivity|].
  intros (_ & Hcp & _). simpl in Hcp. lia.
Qed.

(** C1 (amended). In every reachable state the scores array is as long as
    the players array; the player index is below the number of players, or
    there is no player yet and it is zero; the question index is at most the
    number of questions, and reaches it only on the results section. *)
Theorem reachable_sessionInvariant :
  forall s : State, reachable s -> sessionInvariant s.
Proof. intros s Hr. apply Inv_sessionInvariant, reachable_Inv, Hr. Qed.

Lemma reachable_sessionInvariant_witness :
  sessionInvariant (handle (Answer (JStr "2008")) twoPlayersPlaying).
Proof.
  apply (reachable_sessionInvariant (handle (Answer (JStr "2008")) twoPlayersPlaying)).
  apply reach_step; [apply twoPlayersPlaying_reachable | reflexivity].
Defined.

(** ** One timer at a time *)

(** C7. In every state reached by the page's events, and after any further
    sequence of question renders, turn advances and game endings, at most
    one interval is scheduled.  [clearTimer], which [renderQuestion] calls
    before [startTimer], leaves none; so does [endGame]; a render that
    finds a question left starts exactly one, with a fresh handle; and on
    the results section none is scheduled. *)
Theorem at_most_one_timer :
  forall (s : State) (ops : list timerOp),
    reachable s ->
    let s' := applyOps ops s in
    length (liveIntervals s') <= 1
    /\ liveIntervals (clearTimer s') = []
    /\ liveIntervals (endGame s') = []
    /\ (currentQuestion s' < length (backupQuestions s') ->
        liveIntervals (renderQuestion s') = [nextIntervalId s'])
    /\ (visible s = Results -> liveIntervals s = []).
Proof.
  intros s ops Hr s'.
  pose proof (reachable_Inv s Hr) as (_ & _ & _ & Ht & Hscr).
  assert (Ht' : timerInv s') by apply timerInv_applyOps, Ht.
  split; [apply timerInv_at_most_one, Ht'|].
  split; [apply clearTimer_spec, Ht'|].
  split; [apply endGame_spec, Ht'|].
  split.
  - intros Hq. destruct (renderQuestion_spec s' Ht') as [_ Hrender].
    destruct (Nat.leb_spec (length (backupQuestions s')) (currentQuestion s'));
      [lia | tauto].
  - intros Hv. unfold screenInv in Hscr. rewrite Hv in Hscr. tauto.
Qed.

Lemma at_most_one_timer_witness :
  let s' := applyOps [ OpRender; OpNextTurn; OpRender; OpEndGame; OpRender ]
              aboutToExpire in
  length (liveIntervals s') <= 1
  /\ liveIntervals (clearTimer s') = []
  /\ liveIntervals (endGame s') = []
  /\ (currentQuestion s' < length (backupQuestions s') ->
      liveIntervals (renderQuestion s') = [nextIntervalId s'])
  /\ (visible aboutToExpire = Results -> liveIntervals aboutToExpire = []).
Proof.
  apply (at_most_one_timer aboutToExpire
           [ OpRender; OpNextTurn; OpRender; OpEndGame; OpRender ]).
  apply aboutToExpire_reachable.
Defined.

(** ** Timer expiry against a manual answer *)

(** C2, as stated, fails: fourteen seconds into a question, the next tick
    and a wrong manual answer move the indices alike, but only the manual
    answer is recorded in the history. *)
Lemma expiry_not_logged :
  reachable aboutToExpire
  /\ visible aboutToExpire = Quiz
  /\ expires aboutToExpire = true
  /\ wrongAnswer aboutToExpire (JStr "1999") = true
  /\ ~ expiryLikeAnswer aboutToExpire (JStr "1999").
Proof.
  split; [apply aboutToExpire_reachable|].
  repeat split; try reflexivity.
  intros (sm & Hsm & _ & _ & Hlog).
  vm_compute in Hsm. injection Hsm as <-.
  vm_compute in Hlog. discriminate.
Qed.

(** C2 (amended). When the countdown of a question on display reaches
    zero, no score changes, and the player index, the question index, the
    visible section and the scheduled interval end up exactly as after a
    manual submission of a wrong answer.  The answer history is left as it
    was, whereas the manual submission appends one entry. *)
Theorem expiry_advances_like_wrong_answer :
  forall (s : State) (selected : jsval) (q : Question),
    reachable s ->
    visible s = Quiz ->
    backupQuestions s !! currentQuestion s = Some q ->
    strictEqStr selected (answer q) = false ->
    expires s = true ->
    exists sm,
      onAnswer selected s = inr sm
      /\ scores (timerCallback s) = scores s
      /\ scores sm = scores s
      /\ currentPlayer (timerCallback s) = currentPlayer sm
      /\ currentQuestion (timerCallback s) = currentQuestion sm
      /\ visible (timerCallback s) = visible sm
      /\ liveIntervals (timerCallback s) = liveIntervals sm
      /\ answersLog (timerCallback s) = answersLog s
      /\ answersLog sm = (answersLog s ++ [ loggedAnswer s selected q ])%list.
Proof.
  intros s selected q Hr Hvis Hq Hwrong Hexp.
  pose proof (reachable_Inv s Hr) as (_ & _ & _ & Ht & _).
  unfold onAnswer. rewrite Hq. cbv zeta. rewrite Hwrong.
  eexists; split; [reflexivity|].
  unfold timerCallback. cbv zeta. unfold expires in Hexp.
  set (s1 := set_questionTimeLeft (questionTimeLeft s - 1) s).
  change (questionTimeLeft s1) with (questionTimeLeft s - 1)%Z.
  rewrite Hexp.
  set (s2 := set_answersLog _ s).
  assert (Ht1 : timerInv s1) by exact Ht.
  assert (Ht2 : timerInv s2) by exact Ht.
  destruct (clearTimer_spec s1 Ht1) as [Htc _].
  destruct (clearTimer_frame s1)
    as ((Hns & Hqs & Hsc & Hlg & _ & Hp & Hc) & Hv & _ & Hnid).
  simpl in Hns, Hqs, Hsc, Hlg, Hp, Hc, Hv, Hnid.
  destruct (nextTurn_spec (clearTimer s1) Htc)
    as (_ & _ & Hsc1 & Hlg1 & _ & Hcp1 & Hcq1 & _ & Hend1).
  destruct (nextTurn_spec s2 Ht2)
    as (_ & _ & Hsc2 & Hlg2 & _ & Hcp2 & Hcq2 & _ & Hend2).
  rewrite Hns, Hqs, ?Hp, ?Hc, ?Hv, ?Hnid in *.
  change (playerNames s2) with (playerNames s) in *.
  change (backupQuestions s2) with (backupQuestions s) in *.
  change (currentPlayer s2) with (currentPlayer s) in *.
  change (currentQuestion s2) with (currentQuestion s) in *.
  change (visible s2) with (visible s) in *.
  change (nextIntervalId s2) with (nextIntervalId s) in *.
  change (scores s2) with (scores s) in *.
  assert (Hlog2 : answersLog s2
                  = (answersLog s ++ [ loggedAnswer s selected q ])%list)
    by (unfold loggedAnswer; rewrite Hwrong; reflexivity).
  assert (Hcq12 : currentQuestion (nextTurn (clearTimer s1))
                  = currentQuestion (nextTurn s2)) by congruence.
  rewrite Hcq12 in Hend1.
  repeat match goal with |- _ /\ _ => split end; try congruence.
  - destruct (length (backupQuestions s) <=? currentQuestion (nextTurn s2));
      destruct Hend1 as [-> _], Hend2 as [-> _]; reflexivity.
  - destruct (length (backupQuestions s) <=? currentQuestion (nextTurn s2)).
    + destruct Hend1 as [_ ->], Hend2 as [_ ->]; reflexivity.
    + destruct Hend1 as (_ & _ & ->), Hend2 as (_ & _ & ->); reflexivity.
Qed.

Lemma expiry_advances_like_wrong_answer_witness :
  exists sm,
    onAnswer (JStr "1999") aboutToExpire = inr sm
    /\ scores (timerCallback aboutToExpire) = scores aboutToExpire
    /\ scores sm = scores aboutToExpire
    /\ currentPlayer (timerCallback aboutToExpire) = currentPlayer sm
    /\ currentQuestion (timerCallback aboutToExpire) = currentQuestion sm
    /\ visible (timerCallback aboutToExpire) = visible sm
    /\ liveIntervals (timerCallback aboutToExpire) = liveIntervals sm
    /\ answersLog (timerCallback aboutToExpire) = answersLog aboutToExpire
    /\ answersLog sm
       = (answersLog aboutToExpire
          ++ [ loggedAnswer aboutToExpire (JStr "1999")
                 (mkQuestion "Which year did Bhutan first hold democratic elections?"
                    [ JStr "2008"; JStr "2005"; JStr "2010"; JStr "2013" ]
                    "2008" (JStr "hard")) ])%list.
Proof.
  apply (expiry_advances_like_wrong_answer aboutToExpire (JStr "1999")).
  - apply aboutToExpire_reachable.
  - reflexivity.
  - reflexivity.
  - reflexivity.
  - reflexivity.
Defined.

(** ** Number of turns in a game *)

Section Turns.

Variables n m : nat.
Implicit Types s : State.

(** While a game runs, the section shown tells whether all turns are done. *)
Lemma playing_progress s :
  playing n m s ->
  progress s <= n * m
  /\ (visible s = Results <-> progress s = n * m)
  /\ (visible s = Quiz <-> progress s < n * m).
Proof.
  intros ((_ & _ & _ & _ & Hscr) & Hn & Hm & Hv).
  unfold screenInv in Hscr. unfold progress. rewrite Hn, Hm in *.
  destruct Hv as [Hv | Hv]; rewrite Hv in *.
  - destruct Hscr as (Hcp & Hcq & _).
    assert (currentQuestion s * n + currentPlayer s < n * m) by nia.
    repeat split; try lia; try discriminate; auto.
  - destruct Hscr as (-> & -> & _).
    repeat split; try lia; try discriminate; auto.
Qed.

(** An answer or a tick keeps the game running or ends it, and counts as a
    turn exactly when it advances. *)
Lemma turn_step s e :
  playing n m s ->
  turnEvent e = true ->
  let s' := if enabled s e then handle e s else s in
  playing n m s'
  /\ progress s' = progress s + (if advances s e then 1 else 0).
Proof.
  intros (HI & Hn & Hm & Hv) Hturn. unfold advances.
  destruct (enabled s e) eqn:Hen; simpl;
    [|split; [unfold playing; auto | lia]].
  destruct e; try discriminate; simpl in Hen |- *.
  - apply screen_eqb_eq in Hen.
    destruct (answer_playing s selected HI Hen)
      as (s' & -> & HI' & Hn' & Hm' & Hv' & Hpr).
    unfold playing. rewrite Hn', Hm'. auto.
  - pose proof (live_in_quiz s id HI Hen) as Hq.
    destruct (tick_playing s HI Hq) as (HI' & Hn' & Hm' & Hv' & Hpr).
    unfold playing. rewrite Hn', Hm'. auto.
Qed.

Lemma run_turns es :
  forall s,
    playing n m s ->
    forallb turnEvent es = true ->
    playing n m (run es s)
    /\ progress (run es s) = progress s + turnsTaken es s.
Proof.
  induction es as [|e es IH]; intros s Hp Hall; simpl.
  - split; [exact Hp | lia].
  - simpl in Hall. apply andb_true_iff in Hall as [He Hes].
    destruct (turn_step s e Hp He) as [Hp' Hpr].
    destruct (IH _ Hp' Hes) as [Hp'' Hpr'']. split; [exact Hp''|]. lia.
Qed.

End Turns.

(** C3. Start a game from the difficulty section with [N] players; let
    [M] be the size of the pool it plays.  Then [N >= 1] and [M >= 1], and
    in any run of answers and ticks the turns taken so far are read off the
    two indices, never exceed [N * M], and the results section is shown
    exactly when [N * M] turn-advancing events (manual answers or timer
    expiries) have occurred; before that the quiz section stays. *)
Theorem game_takes_N_times_M_turns :
  forall (s0 : State) (rnd : randomness) (es : list Event),
    reachable s0 ->
    enabled s0 (StartGame rnd) = true ->
    forallb turnEvent es = true ->
    let s := handle (StartGame rnd) s0 in
    let N := length (playerNames s) in
    let M := length (backupQuestions s) in
    1 <= N /\ 1 <= M
    /\ progress (run es s) = turnsTaken es s
    /\ turnsTaken es s <= N * M
    /\ (visible (run es s) = Results <-> turnsTaken es s = N * M)
    /\ (visible (run es s) = Quiz <-> turnsTaken es s < N * M).
Proof.
  intros s0 rnd es Hr Hen Hall s N M.
  pose proof (reachable_Inv s0 Hr) as HI0.
  simpl in Hen. apply screen_eqb_eq in Hen.
  destruct (start_playing rnd s0 HI0 Hen) as (HI & Hv & Hcp & Hcq & Hns).
  fold s in HI, Hv, Hcp, Hcq, Hns.
  assert (Hplay : playing N M s) by (unfold playing; auto).
  assert (Hzero : progress s = 0) by (unfold progress; rewrite Hcp, Hcq; lia).
  destruct (run_turns N M es s Hplay Hall) as [Hp Hpr].
  destruct (playing_progress N M _ Hp) as (Hle & Hres & Hquiz).
  destruct (playing_progress N M s Hplay) as (_ & _ & Hstart).
  rewrite Hpr, Hzero in *. simpl in *.
  apply Hstart in Hv. repeat split; try tauto; nia.
Qed.

Lemma game_takes_N_times_M_turns_witness :
  let es := [ Answer (JStr "2008"); Tick 2; Answer (JStr "2005");
              Answer (JStr "Free Tourism"); Tick 1;
              Answer (JStr "High Value, Low Volume Tourism") ] in
  let s := handle (StartGame someDraws) twoPlayersSetup in
  let N := length (playerNames s) in
  let M := length (backupQuestions s) in
  1 <= N /\ 1 <= M
  /\ progress (run es s) = turnsTaken es s
  /\ turnsTaken es s <= N * M
  /\ (visible (run es s) = Results <-> turnsTaken es s = N * M)
  /\ (visible (run es s) = Quiz <-> turnsTaken es s < N * M).
Proof.
  apply (game_takes_N_times_M_turns twoPlayersSetup someDraws).
  - apply twoPlayersSetup_reachable.
  - reflexivity.
  - reflexivity.
Defined.

(** * Further properties of the code *)

(** ** Validation and loading *)

Section LoaderMore.

(** The test of [validateQuestions], read on the fields of the entry. *)
Lemma entryInvalid_spec q :
  entryInvalid q = if nullish q then throw TypeError else ok (malformed q).
Proof.
  unfold entryInvalid, malformed, hasStringField, hasArrayField, field, getProp.
  destruct q as [| | b | z | str | items | fields]; simpl; try reflexivity.
  destruct (assoc "questionItem" fields) as [[]|]; simpl; try reflexivity;
    destruct (assoc "options" fields) as [[]|]; simpl; try reflexivity;
    destruct (assoc "answer" fields) as [[]|]; simpl; reflexivity.
Qed.

Lemma nullish_malformed q : nullish q = true -> malformed q = true.
Proof. destruct q; simpl; try discriminate; reflexivity. Qed.

Lemma validateFrom_ok data :
  forall i, validateFrom i data = ok tt <-> existsb malformed data = false.
Proof.
  induction data as [|q rest IH]; intros i; simpl; [done|].
  rewrite entryInvalid_spec.
  destruct (nullish q) eqn:Hn; simpl.
  - rewrite (nullish_malformed q Hn). simpl. split; discriminate.
  - destruct (malformed q); simpl; [split; discriminate | apply IH].
Qed.

Lemma validateFrom_index data :
  forall i k,
    validateFrom i data = throw (InvalidQuestion k) ->
    exists j q,
      k = i + j
      /\ data !! j = Some q
      /\ malformed q = true
      /\ existsb malformed (take j data) = false.
Proof.
  induction data as [|q rest IH]; intros i k; simpl; [discriminate|].
  rewrite entryInvalid_spec.
  destruct (nullish q); simpl; [discriminate|].
  destruct (malformed q) eqn:Hm; simpl.
  - intros [= <-]. exists 0, q. simpl. auto with lia.
  - intros Hv. destruct (IH _ _ Hv) as (j & q' & -> & Hj & Hq' & Hbefore).
    exists (S j), q'. simpl. rewrite Hm. auto with lia.
Qed.

Lemma storeEntry_storedAs v q : storeEntry v = Some q -> storedAs v q.
Proof.
  unfold storeEntry, storedAs, field.
  destruct v as [| | | | | |fields]; try discriminate.
  destruct (assoc "questionItem" fields) as [[]|]; try discriminate.
  destruct (assoc "options" fields) as [[]|]; try discriminate.
  destruct (assoc "answer" fields) as [[]|]; try discriminate.
  intros [= <-]. simpl. auto.
Qed.

End LoaderMore.

(** X1. [validateQuestions] returns normally exactly when no entry lacks a
    string [questionItem], a string [answer] or an [options] array. *)
Theorem validateQuestions_accepts_iff_well_formed :
  forall data : list jsval,
    validateQuestions data = ok tt <-> existsb malformed data = false.
Proof. intros data. apply validateFrom_ok. Qed.

(** X2. When [validateQuestions] throws "Invalid question at index k", the
    entry at index [k] is malformed and every entry before it is well
    formed: the error names the first offending entry. *)
Theorem validateQuestions_reports_first_malformed :
  forall (data : list jsval) (k : nat),
    validateQuestions data = throw (InvalidQuestion k) ->
    exists q,
      data !! k = Some q
      /\ malformed q = true
      /\ existsb malformed (take k data) = false.
Proof.
  intros data k Hv.
  destruct (validateFrom_index data 0 k Hv) as (j & q & -> & Hq & Hm & Hb).
  exists q. auto.
Qed.

Lemma validateQuestions_reports_first_malformed_witness :
  let good := JObj [ ("questionItem", JStr "2 + 2?");
                     ("options", JArr [ JStr "3"; JStr "4" ]);
                     ("answer", JStr "4") ] in
  let bad := JObj [ ("questionItem", JStr "Capital?"); ("options", JStr "Thimphu");
                    ("answer", JStr "Thimphu") ] in
  exists q,
    [ good; bad; JNum 7 ] !! 1 = Some q
    /\ malformed q = true
    /\ existsb malformed (take 1 [ good; bad; JNum 7 ]) = false.
Proof.
  intros good bad.
  apply (validateQuestions_reports_first_malformed [ good; bad; JNum 7 ] 1).
  reflexivity.
Defined.

(** X3. A successful response carrying a non-empty array of well-formed
    entries replaces the question store: entry by entry, the stored question
    has the fetched prompt, options and answer, and the fetched difficulty,
    with a falsy or missing one stored as [undefined]. *)
Theorem well_formed_set_replaces_store :
  forall (fetch : network) (data : list jsval) (backup : list Question),
    fetch "./questions.json" = Response true (Some (JArr data)) ->
    data <> [] ->
    existsb malformed data = false ->
    Forall2 storedAs data (loadQuestions fetch backup).
Proof.
  intros fetch data backup Hfetch Hne Hwf.
  unfold loadQuestions, QUESTIONS_SOURCES; simpl. rewrite Hfetch. simpl.
  destruct data as [|v rest]; [congruence|]. simpl length. simpl negb.
  cbv iota.
  pose proof (proj2 (validateFrom_ok (v :: rest) 0) Hwf) as Hv.
  unfold validateQuestions. rewrite Hv.
  destruct (validated_stored (v :: rest) 0 Hv) as [qs Hqs]. rewrite Hqs.
  apply mapM_Some in Hqs.
  eapply Forall2_impl; [exact Hqs|]. apply storeEntry_storedAs.
Qed.

Lemma well_formed_set_replaces_store_witness :
  let data := [ JObj [ ("questionItem", JStr "2 + 2?");
                       ("options", JArr [ JStr "3"; JStr "4" ]);
                       ("answer", JStr "4");
                       ("difficulty", JNum 0) ] ] in
  let fetch : network := fun _ => Response true (Some (JArr data)) in
  Forall2 storedAs data (loadQuestions fetch builtinQuestions).
Proof.
  intros data fetch.
  apply (well_formed_set_replaces_store fetch data builtinQuestions).
  - reflexivity.
  - discriminate.
  - reflexivity.
Defined.

(** X4. When the fetch is rejected, the status is not a success, the body
    does not parse, or it parses to something that is not an array, the
    question store is left as it was. *)
Theorem unusable_response_keeps_store :
  forall (fetch : network) (backup : list Question),
    unusable (fetch "./questions.json") = true ->
    loadQuestions fetch backup = backup.
Proof.
  intros fetch backup Hbad.
  unfold loadQuestions, QUESTIONS_SOURCES; simpl.
  destruct (fetch "./questions.json") as [|[] [[]|]]; simpl in *;
    try reflexivity; discriminate.
Qed.

Lemma unusable_response_keeps_store_witness :
  loadQuestions (fun _ => Response true (Some (JObj [ ("questions", JArr []) ])))
    builtinQuestions
  = builtinQuestions.
Proof.
  apply (unusable_response_keeps_store
           (fun _ => Response true (Some (JObj [ ("questions", JArr []) ])))).
  reflexivity.
Defined.

(** ** Roster *)

(** X5. Adding a name that is not blank appends the trimmed name to the
    roster, after the players already there, and leaves the visible
    section, the question store and the two indices alone. *)
Theorem add_appends_trimmed_name :
  forall (value : string) (s : State),
    trim value <> "" ->
    let s' := addPlayerFromInput value s in
    playerNames s' = (playerNames s ++ [ trim value ])%list
    /\ playerIndexCounter s' = length (playerNames s) + 2
    /\ visible s' = visible s
    /\ backupQuestions s' = backupQuestions s
    /\ currentPlayer s' = currentPlayer s
    /\ currentQuestion s' = currentQuestion s.
Proof.
  intros value s Hname. unfold addPlayerFromInput. cbv zeta.
  destruct (String.eqb_spec (trim value) ""); [contradiction|].
  simpl. rewrite length_app. simpl. repeat split; lia.
Qed.

Lemma add_appends_trimmed_name_witness :
  let s' := addPlayerFromInput "  Cy " twoPlayersSetup in
  playerNames s' = (playerNames twoPlayersSetup ++ [ trim "  Cy " ])%list
  /\ playerIndexCounter s' = length (playerNames twoPlayersSetup) + 2
  /\ visible s' = visible twoPlayersSetup
  /\ backupQuestions s' = backupQuestions twoPlayersSetup
  /\ currentPlayer s' = currentPlayer twoPlayersSetup
  /\ currentQuestion s' = currentQuestion twoPlayersSetup.
Proof.
  apply (add_appends_trimmed_name "  Cy " twoPlayersSetup). discriminate.
Defined.

(** X6. Removing the player that was just added gives the roster back;
    removing at an index past the end leaves the roster as it is. *)
Theorem remove_undoes_add :
  forall (value : string) (index : nat) (s : State),
    trim value <> "" ->
    length (playerNames s) < index ->
    let added := addPlayerFromInput value s in
    playerNames (removePlayerAt (length (playerNames s)) added) = playerNames s
    /\ playerNames (removePlayerAt index added) = playerNames added.
Proof.
  intros value index s Hname Hpast. unfold addPlayerFromInput. cbv zeta.
  destruct (String.eqb_spec (trim value) ""); [contradiction|].
  simpl. split.
  - clear Hpast. induction (playerNames s) as [|x l IH]; simpl; [reflexivity|].
    f_equal. exact IH.
  - rewrite delete_take_drop.
    rewrite take_ge, drop_ge, app_nil_r; rewrite ?length_app; simpl; auto with lia.
Qed.

Lemma remove_undoes_add_witness :
  let added := addPlayerFromInput "Cy" twoPlayersSetup in
  playerNames (removePlayerAt (length (playerNames twoPlayersSetup)) added)
  = playerNames twoPlayersSetup
  /\ playerNames (removePlayerAt 7 added) = playerNames added.
Proof.
  apply (remove_undoes_add "Cy" 7 twoPlayersSetup).
  - discriminate.
  - simpl. lia.
Defined.

(** ** Shuffle *)

Lemma shuffleLoop_draws {A} (rnd rnd' : randomness) (i : nat) :
  forall call (arr : list A),
    (forall k, call <= k < call + i -> rnd k = rnd' k) ->
    shuffleLoop rnd call i arr = shuffleLoop rnd' call i arr.
Proof.
  induction i as [|i IH]; intros call arr Hsame; simpl; [reflexivity|].
  rewrite (Hsame call) by lia. apply IH. intros k Hk. apply Hsame. lia.
Qed.

(** X7. [shuffleArray] consumes [arr.length - 1] results of
    [Math.random()]: two sources that agree on those give the same array.
    In particular an array of fewer than two elements is left as it is. *)
Theorem shuffle_uses_length_minus_one_draws :
  forall (A : Type) (rnd rnd' : randomness) (arr : list A),
    (forall k, k < length arr - 1 -> rnd k = rnd' k) ->
    shuffleArray rnd arr = shuffleArray rnd' arr
    /\ (length arr <= 1 -> shuffleArray rnd arr = arr).
Proof.
  intros A rnd rnd' arr Hsame. split.
  - apply shuffleLoop_draws. intros k Hk. apply Hsame. lia.
  - intros Hshort. unfold shuffleArray.
    replace (length arr - 1) with 0 by lia. reflexivity.
Qed.

Lemma shuffle_uses_length_minus_one_draws_witness :
  let rnd' : randomness := fun k => if k <? 3 then someDraws k else (0, 0) in
  shuffleArray someDraws [ 10; 20; 30; 40 ] = shuffleArray rnd' [ 10; 20; 30; 40 ]
  /\ (length [ 10; 20; 30; 40 ] <= 1 ->
      shuffleArray someDraws [ 10; 20; 30; 40 ] = [ 10; 20; 30; 40 ]).
Proof.
  intros rnd'.
  apply (shuffle_uses_length_minus_one_draws nat someDraws rnd' [ 10; 20; 30; 40 ]).
  intros k Hk. simpl in Hk. unfold rnd'.
  destruct (Nat.ltb_spec k 3); [reflexivity | lia].
Defined.

(** ** Answers without a question *)

(** X8. When no question is left at the current index, [onAnswer] throws
    before it writes anything: the click changes nothing. *)
Theorem answer_without_question_throws :
  forall (selected : jsval) (s : State),
    length (backupQuestions s) <= currentQuestion s ->
    onAnswer selected s = throw TypeError
    /\ handle (Answer selected) s = s.
Proof.
  intros selected s Hout. simpl. unfold onAnswer.
  rewrite (lookup_ge_None_2 _ _ Hout). auto.
Qed.

Lemma answer_without_question_throws_witness :
  let finished := run (repeat (Answer (JStr "2008")) 4) twoPlayersPlaying in
  onAnswer (JStr "2005") finished = throw TypeError
  /\ handle (Answer (JStr "2005")) finished = finished.
Proof.
  intros finished.
  apply (answer_without_question_throws (JStr "2005") finished).
  vm_compute. lia.
Defined.

(** ** What one event does to the session *)

Section Effects.

Implicit Types s : State.

Lemma clearTimer_counter s :
  playerIndexCounter (clearTimer s) = playerIndexCounter s.
Proof.
  unfold clearTimer. destruct (questionTimerId s) as [[|id]|]; reflexivity.
Qed.

Lemma renderQuestion_counter s :
  playerIndexCounter (renderQuestion s) = playerIndexCounter s.
Proof.
  unfold renderQuestion, endGame.
  destruct (length (backupQuestions s) <=? currentQuestion s); simpl;
    apply clearTimer_counter.
Qed.

Lemma nextTurn_counter s :
  playerIndexCounter (nextTurn s) = playerIndexCounter s.
Proof.
  unfold nextTurn. cbv zeta.
  repeat match goal with
         | |- context [if ?b then _ else _] => destruct b
         end;
    unfold endGame; simpl;
    rewrite ?renderQuestion_counter, ?clearTimer_counter; reflexivity.
Qed.

Lemma renderQuestion_countdown s :
  currentQuestion s < length (backupQuestions s) ->
  questionTimeLeft (renderQuestion s) = secondsFor (chosenDifficulty s).
Proof.
  intros Hq. unfold renderQuestion.
  destruct (Nat.leb_spec (length (backupQuestions s)) (currentQuestion s));
    [lia|].
  destruct (clearTimer_frame s) as ((_ & _ & _ & _ & Hcd & _) & _).
  cbv zeta. simpl. rewrite Hcd. reflexivity.
Qed.

(** A manual answer on a question that exists. *)
Lemma answer_effect s selected q :
  timerInv s ->
  backupQuestions s !! currentQuestion s = Some q ->
  let s' := handle (Answer selected) s in
  let wrap := length (playerNames s) <=? currentPlayer s + 1 in
  playerNames s' = playerNames s
  /\ backupQuestions s' = backupQuestions s
  /\ playerIndexCounter s' = playerIndexCounter s
  /\ answersLog s' = (answersLog s ++ [ loggedAnswer s selected q ])%list
  /\ scores s' =
       (if strictEqStr selected (answer q)
        then incrementAt (currentPlayer s) (scores s)
        else scores s)
  /\ currentPlayer s' = (if wrap then 0 else currentPlayer s + 1)
  /\ currentQuestion s' =
       (if wrap then currentQuestion s + 1 else currentQuestion s)
  /\ (if length (backupQuestions s) <=? currentQuestion s'
      then visible s' = Results /\ liveIntervals s' = []
      else visible s' = visible s
           /\ liveIntervals s' = [ nextIntervalId s ]).
Proof.
  intros Ht Hq. simpl. unfold onAnswer, ok. rewrite Hq. cbv beta iota zeta.
  match goal with |- context [nextTurn ?st] => set (s2 := st) end.
  assert (Hs2 : playerNames s2 = playerNames s
                /\ backupQuestions s2 = backupQuestions s
                /\ playerIndexCounter s2 = playerIndexCounter s
                /\ answersLog s2
                   = (answersLog s ++ [ loggedAnswer s selected q ])%list
                /\ scores s2 =
                     (if strictEqStr selected (answer q)
                      then incrementAt (currentPlayer s) (scores s)
                      else scores s)
                /\ currentPlayer s2 = currentPlayer s
                /\ currentQuestion s2 = currentQuestion s
                /\ visible s2 = visible s
                /\ nextIntervalId s2 = nextIntervalId s
                /\ timerInv s2).
  { subst s2. unfold loggedAnswer.
    destruct (strictEqStr selected (answer q)); simpl;
      repeat match goal with |- _ /\ _ => split end; auto. }
  destruct Hs2 as (Hns & Hqs & Hpic & Hlg & Hsc & Hcp & Hcq & Hv & Hnid & Ht2).
  clearbody s2.
  pose proof (nextTurn_counter s2) as Hpic'.
  destruct (nextTurn_spec s2 Ht2)
    as (Hns' & Hqs' & Hsc' & Hlg' & _ & Hcp' & Hcq' & _ & Hend).
  rewrite Hns, Hqs, Hcp, Hcq, Hv, Hnid in *.
  repeat match goal with |- _ /\ _ => split end; try congruence.
  destruct (length (backupQuestions s) <=? currentQuestion (nextTurn s2));
    tauto.
Qed.

(** One firing of the interval callback. *)
Lemma tick_effect s :
  timerInv s ->
  let s' := timerCallback s in
  let wrap := length (playerNames s) <=? currentPlayer s + 1 in
  playerNames s' = playerNames s
  /\ backupQuestions s' = backupQuestions s
  /\ playerIndexCounter s' = playerIndexCounter s
  /\ answersLog s' = answersLog s
  /\ scores s' = scores s
  /\ (if expires s
      then currentPlayer s' = (if wrap then 0 else currentPlayer s + 1)
           /\ currentQuestion s' =
                (if wrap then currentQuestion s + 1 else currentQuestion s)
           /\ (if length (backupQuestions s) <=? currentQuestion s'
               then visible s' = Results /\ liveIntervals s' = []
               else visible s' = visible s
                    /\ liveIntervals s' = [ nextIntervalId s ])
      else s' = set_questionTimeLeft (questionTimeLeft s - 1) s).
Proof.
  intros Ht. unfold timerCallback, expires. cbv zeta.
  set (s1 := set_questionTimeLeft (questionTimeLeft s - 1) s).
  change (questionTimeLeft s1) with (questionTimeLeft s - 1)%Z.
  destruct (questionTimeLeft s - 1 <=? 0)%Z.
  - assert (Ht1 : timerInv s1) by exact Ht.
    destruct (clearTimer_spec s1 Ht1) as [Htc _].
    destruct (clearTimer_frame s1)
      as ((Hns & Hqs & Hsc & Hlg & _ & Hcp & Hcq) & Hv & _ & Hnid).
    pose proof (clearTimer_counter s1) as Hpic.
    pose proof (nextTurn_counter (clearTimer s1)) as Hpic'.
    destruct (nextTurn_spec (clearTimer s1) Htc)
      as (Hns' & Hqs' & Hsc' & Hlg' & _ & Hcp' & Hcq' & _ & Hend).
    simpl in Hns, Hqs, Hsc, Hlg, Hcp, Hcq, Hv, Hnid, Hpic.
    rewrite Hns, Hqs, Hcp, Hcq, Hv, Hnid in *.
    repeat match goal with |- _ /\ _ => split end; try congruence.
    destruct (length (backupQuestions s)
              <=? currentQuestion (nextTurn (clearTimer s1))); tauto.
  - repeat match goal with |- _ /\ _ => split end; reflexivity.
Qed.

(** Starting a game. *)
Lemma start_effect rnd s :
  timerInv s ->
  backupQuestions s <> [] ->
  let s' := handle (StartGame rnd) s in
  playerNames s' = playerNames s
  /\ playerIndexCounter s' = playerIndexCounter s
  /\ chosenDifficulty s' = chosenDifficulty s
  /\ answersLog s' = answersLog s
  /\ scores s' = zeroScores (length (playerNames s))
  /\ backupQuestions s' =
       shuffleArray rnd (difficultyPool (chosenDifficulty s) (backupQuestions s))
  /\ liveIntervals s' = [ nextIntervalId s ]
  /\ questionTimeLeft s' = secondsFor (chosenDifficulty s).
Proof.
  intros Ht Hne. simpl. unfold showQuiz.
  set (s1 := setSection Quiz (applyDifficultyFilter rnd s)).
  assert (Ht1 : timerInv s1) by exact Ht.
  assert (Hq1 : currentQuestion s1 < length (backupQuestions s1)).
  { change (currentQuestion s1) with 0.
    change (backupQuestions s1)
      with (shuffleArray rnd
              (difficultyPool (chosenDifficulty s) (backupQuestions s))).
    pose proof (shuffle_nonempty rnd _
                  (difficultyPool_nonempty (chosenDifficulty s) _ Hne)) as Hn.
    destruct (shuffleArray rnd _); [congruence | simpl; lia]. }
  destruct (renderQuestion_spec s1 Ht1) as [_ Hr].
  destruct (renderQuestion_frame s1) as (Hns & Hqs & Hsc & Hlg & Hcd & _ & _).
  pose proof (renderQuestion_counter s1) as Hpic.
  pose proof (renderQuestion_countdown s1 Hq1) as Htl.
  destruct (Nat.leb_spec (length (backupQuestions s1)) (currentQuestion s1));
    [lia|].
  destruct Hr as (_ & Hlive & _).
  rewrite Hns, Hpic, Hcd, Hlg, Hsc, Hqs, Hlive, Htl.
  repeat match goal with |- _ /\ _ => split end; reflexivity.
Qed.

End Effects.

(** ** Scores and the answer history *)

Section History.

Implicit Types (s : State) (log : list LogEntry) (e : LogEntry).

Lemma countBy_snoc i log e :
  countBy i (log ++ [ e ])
  = countBy i log + (if playerIndex e =? i then 1 else 0).
Proof.
  unfold countBy. rewrite List.filter_app, length_app. simpl.
  destruct (playerIndex e =? i); reflexivity.
Qed.

Lemma countCorrect_snoc i log e :
  countCorrect i (log ++ [ e ])
  = countCorrect i log
    + (if (playerIndex e =? i) && isCorrect e then 1 else 0).
Proof.
  unfold countCorrect. rewrite List.filter_app, length_app. simpl.
  destruct ((playerIndex e =? i) && isCorrect e); reflexivity.
Qed.

Lemma countCorrect_le_countBy i log : countCorrect i log <= countBy i log.
Proof.
  unfold countCorrect, countBy.
  induction log as [|e log IH]; simpl; [lia|].
  destruct (playerIndex e =? i), (isCorrect e); simpl; lia.
Qed.

Lemma scoresOf_nil n : scoresOf n [] = zeroScores n.
Proof.
  unfold scoresOf, zeroScores.
  assert (Hk : forall k, map (fun i => Pts (countCorrect i [])) (seq k n)
                         = replicate n (Pts 0)); [|apply Hk].
  induction n as [|n IH]; intros k; simpl; [reflexivity|].
  rewrite IH. reflexivity.
Qed.

Lemma scoresOf_length n log : length (scoresOf n log) = n.
Proof. unfold scoresOf. by rewrite length_map, length_seq. Qed.

Lemma scoresOf_lookup n log i :
  i < n -> scoresOf n log !! i = Some (Pts (countCorrect i log)).
Proof.
  intros Hi. unfold scoresOf.
  rewrite list_lookup_fmap, lookup_seq_lt by lia. reflexivity.
Qed.

Lemma scoresOf_snoc_wrong n log e :
  isCorrect e = false -> scoresOf n (log ++ [ e ]) = scoresOf n log.
Proof.
  intros Hw. unfold scoresOf. apply map_ext. intros i.
  rewrite countCorrect_snoc, Hw, andb_false_r. f_equal. lia.
Qed.

Lemma scoresOf_snoc_correct n log e :
  isCorrect e = true ->
  playerIndex e < n ->
  scoresOf n (log ++ [ e ]) = incrementAt (playerIndex e) (scoresOf n log).
Proof.
  intros Hc Hi. unfold incrementAt.
  rewrite (scoresOf_lookup n log _ Hi).
  apply list_eq. intros j.
  destruct (decide (j = playerIndex e)) as [->|Hne].
  - rewrite list_lookup_insert_eq by (by rewrite scoresOf_length).
    rewrite (scoresOf_lookup _ _ _ Hi), countCorrect_snoc, Hc, Nat.eqb_refl.
    simpl. do 2 f_equal. lia.
  - rewrite list_lookup_insert_ne by congruence.
    destruct (Nat.lt_ge_cases j n) as [Hj|Hj].
    + rewrite !(scoresOf_lookup _ _ _ Hj), countCorrect_snoc.
      destruct (Nat.eqb_spec (playerIndex e) j); [congruence|].
      simpl. do 2 f_equal. lia.
    + rewrite !lookup_ge_None_2 by (by rewrite scoresOf_length). reflexivity.
Qed.

Lemma gameInv_init fetch : gameInv (init fetch).
Proof.
  unfold gameInv; simpl.
  repeat match goal with |- _ /\ _ => split end; auto; try discriminate;
    try (intros i; unfold countBy; simpl; lia).
Qed.

(** A roster edit in the name section. *)
Lemma gameInv_roster names s text :
  gameInv s ->
  visible s = SetupNames ->
  gameInv (setMsg text
             (set_playerIndexCounter (length names + 1)
                (set_scores (zeroScores (length names))
                   (set_playerNames names s)))).
Proof.
  intros (_ & Hlog & _ & _ & _ & _) Hvis.
  assert (Hnil : answersLog s = []) by auto.
  unfold gameInv; simpl. rewrite Hnil, Hvis, scoresOf_nil.
  repeat match goal with |- _ /\ _ => split end; auto; try discriminate;
    try (intros i; unfold countBy; simpl; lia).
Qed.

(** A change of section or message between the two setup sections. *)
Lemma gameInv_setup s s' :
  gameInv s ->
  visible s = SetupNames \/ visible s = SetupDifficulty ->
  visible s' = SetupNames \/ visible s' = SetupDifficulty ->
  playerIndexCounter s' = playerIndexCounter s ->
  sameSession s s' ->
  gameInv s'.
Proof.
  intros (Hpic & Hlog & Hsc & Hok & Hcnt & _) Hv Hv' Hpic'
    (Hns & Hqs & Hscs & Hlg & _ & Hcp & Hcq).
  unfold gameInv. rewrite Hpic', Hns, Hqs, Hscs, Hlg, Hcp, Hcq.
  repeat match goal with |- _ /\ _ => split end; auto.
  intros Hq. destruct Hv' as [Hv' | Hv']; rewrite Hv' in Hq; discriminate.
Qed.

End History.

Section GameInvariant.

Implicit Types s : State.

(** The bound on a player's logged answers moves with the two indices. *)
Lemma turn_bound (players cp cq i c : nat) :
  cp < players ->
  c <= cq + (if i <? cp then 1 else 0) ->
  c + (if cp =? i then 1 else 0)
  <= (if players <=? cp + 1 then cq + 1 else cq)
     + (if i <? (if players <=? cp + 1 then 0 else cp + 1) then 1 else 0).
Proof.
  intros Hcp Hc.
  destruct (Nat.ltb_spec i cp), (Nat.eqb_spec cp i),
    (Nat.leb_spec players (cp + 1)); simpl;
    try destruct (Nat.ltb_spec i (cp + 1)); lia.
Qed.

Lemma gameInv_answer s selected :
  Inv s -> gameInv s -> visible s = Quiz ->
  gameInv (handle (Answer selected) s).
Proof.
  intros (_ & _ & _ & Ht & Hscr) (Hpic & _ & Hsc & Hok & Hcnt & _) Hvis.
  unfold screenInv in Hscr. rewrite Hvis in Hscr.
  destruct Hscr as (Hcp & Hcq & _).
  destruct (lookup_lt_is_Some_2 _ _ Hcq) as [q Hq].
  destruct (answer_effect s selected q Ht Hq)
    as (Hns & Hqs & Hpic' & Hlg & Hsc' & Hcp' & Hcq' & Hend).
  unfold gameInv. rewrite Hns, Hqs, Hpic', Hlg, Hsc', Hcp', Hcq'.
  rewrite Hcq' in Hend.
  repeat match goal with |- _ /\ _ => split end.
  - exact Hpic.
  - intros Hsetup.
    destruct (_ <=? _) in Hend; destruct Hend as [Hv _];
      rewrite Hv, ?Hvis in Hsetup; destruct Hsetup; discriminate.
  - rewrite Hsc.
    destruct (strictEqStr selected (answer q)) eqn:Hc.
    + symmetry. apply (scoresOf_snoc_correct _ _ (loggedAnswer s selected q));
        [exact Hc | exact Hcp].
    + symmetry. apply (scoresOf_snoc_wrong _ _ (loggedAnswer s selected q)).
      exact Hc.
  - apply Forall_app. split; [exact Hok|]. constructor; [|constructor].
    unfold entryOk, loggedAnswer; simpl.
    repeat match goal with |- _ /\ _ => split end; auto; try lia.
    exists q. rewrite Nat.add_sub. auto.
  - intros i. rewrite countBy_snoc. simpl.
    apply turn_bound; [exact Hcp | apply Hcnt].
  - intros Hquiz. destruct (_ <=? _) in Hend.
    + destruct Hend as [Hv _]. rewrite Hv in Hquiz. discriminate.
    + destruct Hend as [_ Hlive]. eauto.
Qed.

Lemma gameInv_tick s :
  Inv s -> gameInv s -> visible s = Quiz -> gameInv (timerCallback s).
Proof.
  intros (_ & _ & _ & Ht & Hscr) (Hpic & _ & Hsc & Hok & Hcnt & Hone) Hvis.
  unfold screenInv in Hscr. rewrite Hvis in Hscr.
  destruct Hscr as (Hcp & Hcq & _).
  destruct (tick_effect s Ht) as (Hns & Hqs & Hpic' & Hlg & Hsc' & Hexp).
  unfold gameInv. rewrite Hns, Hqs, Hpic', Hlg, Hsc'.
  destruct (expires s).
  - destruct Hexp as (Hcp' & Hcq' & Hend). rewrite Hcp', Hcq'.
    rewrite Hcq' in Hend.
    repeat match goal with |- _ /\ _ => split end; auto.
    + intros Hsetup.
      destruct (_ <=? _) in Hend; destruct Hend as [Hv _];
        rewrite Hv, ?Hvis in Hsetup; destruct Hsetup; discriminate.
    + intros i. pose proof (turn_bound _ _ _ i _ Hcp (Hcnt i)). lia.
    + intros Hquiz. destruct (_ <=? _) in Hend.
      * destruct Hend as [Hv _]. rewrite Hv in Hquiz. discriminate.
      * destruct Hend as [_ Hlive]. eauto.
  - rewrite Hexp. simpl.
    repeat match goal with |- _ /\ _ => split end; auto.
    rewrite Hvis. intros [|]; discriminate.
Qed.

Lemma gameInv_start rnd s :
  Inv s -> gameInv s -> visible s = SetupDifficulty ->
  gameInv (handle (StartGame rnd) s).
Proof.
  intros HI (Hpic & Hlog & _) Hvis.
  pose proof HI as (Hne & _ & _ & Ht & _).
  destruct (start_playing rnd s HI Hvis) as (_ & Hv' & Hcp' & Hcq' & _).
  destruct (start_effect rnd s Ht Hne)
    as (Hns & Hpic' & _ & Hlg & Hsc & _ & Hlive & _).
  assert (Hnil : answersLog s = []) by auto.
  unfold gameInv. rewrite Hns, Hpic', Hlg, Hsc, Hcp', Hcq', Hv', Hnil, Hlive.
  rewrite scoresOf_nil.
  repeat match goal with |- _ /\ _ => split end; eauto;
    try (intros [|]; discriminate);
    try (intros i; unfold countBy; simpl; lia).
Qed.

Lemma gameInv_step s e :
  Inv s -> gameInv s -> enabled s e = true -> gameInv (handle e s).
Proof.
  intros HI HG Hen.
  destruct e as [value|index| | |value|rnd|selected|id|fetch];
    simpl in Hen.
  - apply screen_eqb_eq in Hen. simpl. unfold addPlayerFromInput. cbv zeta.
    destruct (String.eqb (trim value) ""); [exact HG|].
    apply (gameInv_roster _ s _ HG Hen).
  - apply andb_true_iff in Hen as [Hen _]. apply screen_eqb_eq in Hen.
    apply (gameInv_roster _ s _ HG Hen).
  - apply screen_eqb_eq in Hen. simpl. unfold continueToDifficulty.
    destruct (length (playerNames s) <? 1); [exact HG|].
    apply (gameInv_setup s); auto. repeat split.
  - apply screen_eqb_eq in Hen.
    apply (gameInv_setup s); simpl; auto. repeat split.
  - exact HG.
  - apply screen_eqb_eq in Hen. apply (gameInv_start rnd s HI HG Hen).
  - apply screen_eqb_eq in Hen. apply (gameInv_answer s selected HI HG Hen).
  - apply (gameInv_tick s HI HG (live_in_quiz s id HI Hen)).
  - apply gameInv_init.
Qed.

Lemma reachable_gameInv s : reachable s -> gameInv s.
Proof.
  induction 1 as [fetch | s e Hr IH Hen]; [apply gameInv_init|].
  apply gameInv_step; auto using reachable_Inv.
Qed.

End GameInvariant.

(** ** Invariants of the running page *)

(** X9. Outside the name section there is at least one player: the
    continue button refuses an empty roster, and players can only be
    removed in the name section. *)
Theorem no_game_without_players :
  forall s : State,
    reachable s -> visible s <> SetupNames -> playerNames s <> [].
Proof.
  intros s Hr Hvis. destruct (reachable_Inv s Hr) as (_ & _ & _ & _ & Hscr).
  unfold screenInv in Hscr. destruct (visible s); try tauto.
  destruct Hscr as (Hcp & _). intros Hnil. rewrite Hnil in Hcp.
  simpl in Hcp. lia.
Qed.

Lemma no_game_without_players_witness : playerNames aboutToExpire <> [].
Proof.
  apply (no_game_without_players aboutToExpire).
  - apply aboutToExpire_reachable.
  - intros Hvis. vm_compute in Hvis. discriminate Hvis.
Defined.

(** X10. While a question is on display, no event changes the roster or
    the pool of questions. *)
Theorem roster_and_pool_frozen_in_quiz :
  forall (s : State) (e : Event),
    reachable s ->
    visible s = Quiz ->
    enabled s e = true ->
    playerNames (handle e s) = playerNames s
    /\ backupQuestions (handle e s) = backupQuestions s.
Proof.
  intros s e Hr Hvis Hen. pose proof (reachable_Inv s Hr) as HI.
  destruct e; simpl in Hen;
    try (apply andb_true_iff in Hen as [Hen _]);
    try (apply screen_eqb_eq in Hen; rewrite Hvis in Hen; discriminate).
  - destruct (answer_playing s selected HI Hvis) as (s' & Hs' & _ & Hn & Hq & _).
    simpl. rewrite Hs'. auto.
  - destruct (tick_playing s HI Hvis) as (_ & Hn & Hq & _). auto.
Qed.

Lemma roster_and_pool_frozen_in_quiz_witness :
  playerNames (handle (Tick 1) aboutToExpire) = playerNames aboutToExpire
  /\ backupQuestions (handle (Tick 1) aboutToExpire)
     = backupQuestions aboutToExpire.
Proof.
  apply (roster_and_pool_frozen_in_quiz aboutToExpire (Tick 1)).
  - apply aboutToExpire_reachable.
  - reflexivity.
  - reflexivity.
Defined.

(** X11. Turn order: after [t] turns of a game with [N] players, while a
    question is on display, it is question [t / N] and the turn of player
    [t mod N]; every player is asked each question before the next one. *)
Theorem turn_order :
  forall (s0 : State) (rnd : randomness) (es : list Event),
    reachable s0 ->
    enabled s0 (StartGame rnd) = true ->
    forallb turnEvent es = true ->
    let s := handle (StartGame rnd) s0 in
    let N := length (playerNames s) in
    visible (run es s) = Quiz ->
    currentPlayer (run es s) = turnsTaken es s mod N
    /\ currentQuestion (run es s) = turnsTaken es s / N.
Proof.
  intros s0 rnd es Hr Hen Hall s N Hquiz.
  pose proof (reachable_Inv s0 Hr) as HI0.
  simpl in Hen. apply screen_eqb_eq in Hen.
  destruct (start_playing rnd s0 HI0 Hen) as (HI & Hv & Hcp & Hcq & _).
  fold s in HI, Hv, Hcp, Hcq.
  assert (Hplay : playing N (length (backupQuestions s)) s)
    by (unfold playing; auto).
  destruct (run_turns _ _ es s Hplay Hall) as [(HI' & Hn & _ & _) Hpr].
  destruct HI' as (_ & _ & _ & _ & Hscr).
  unfold screenInv in Hscr. rewrite Hquiz in Hscr. destruct Hscr as (Hlt & _).
  assert (Hzero : progress s = 0) by (unfold progress; rewrite Hcp, Hcq; lia).
  rewrite Hzero in Hpr. unfold progress in Hpr. rewrite Hn in *.
  split.
  - apply (Nat.mod_unique _ N (currentQuestion (run es s))); lia.
  - apply (Nat.div_unique _ N _ (currentPlayer (run es s))); lia.
Qed.

Lemma turn_order_witness :
  let es := [ Answer (JStr "2008"); Tick 2; Answer (JStr "2005");
              Answer (JStr "Free Tourism") ] in
  let s := handle (StartGame someDraws) twoPlayersSetup in
  let N := length (playerNames s) in
  currentPlayer (run es s) = turnsTaken es s mod N
  /\ currentQuestion (run es s) = turnsTaken es s / N.
Proof.
  intros es s N.
  apply (turn_order twoPlayersSetup someDraws es).
  - apply twoPlayersSetup_reachable.
  - reflexivity.
  - reflexivity.
  - vm_compute. reflexivity.
Defined.

Lemma strictEqStr_true selected str :
  strictEqStr selected str = true <-> selected = JStr str.
Proof.
  destruct selected; simpl; try (split; [discriminate | congruence]).
  rewrite String.eqb_eq. split; congruence.
Qed.

(** X12. Scoring of one answer: choosing the string that is the answer of
    the question on display adds exactly one point to the current player
    and to no one else; any other choice leaves all scores as they are. *)
Theorem answer_scores_current_player :
  forall (s : State) (selected : jsval) (q : Question),
    reachable s ->
    visible s = Quiz ->
    backupQuestions s !! currentQuestion s = Some q ->
    let s' := handle (Answer selected) s in
    (selected = JStr (answer q) ->
     exists n,
       scores s !! currentPlayer s = Some (Pts n)
       /\ scores s' = <[currentPlayer s := Pts (n + 1)]> (scores s))
    /\ (selected <> JStr (answer q) -> scores s' = scores s).
Proof.
  intros s selected q Hr Hvis Hq s'.
  destruct (reachable_Inv s Hr) as (_ & _ & _ & Ht & Hscr).
  destruct (reachable_gameInv s Hr) as (_ & _ & Hsc & _).
  unfold screenInv in Hscr. rewrite Hvis in Hscr. destruct Hscr as (Hcp & _).
  destruct (answer_effect s selected q Ht Hq) as (_ & _ & _ & _ & Hsc' & _).
  fold s' in Hsc'. split.
  - intros Hright. apply strictEqStr_true in Hright. rewrite Hright in Hsc'.
    exists (countCorrect (currentPlayer s) (answersLog s)).
    assert (Hcell : scores s !! currentPlayer s
                    = Some (Pts (countCorrect (currentPlayer s) (answersLog s))))
      by (rewrite Hsc; apply scoresOf_lookup, Hcp).
    split; [exact Hcell|].
    rewrite Hsc'. unfold incrementAt. rewrite Hcell, Nat.add_1_r. reflexivity.
  - intros Hwrong.
    destruct (strictEqStr selected (answer q)) eqn:Hc; [|exact Hsc'].
    apply strictEqStr_true in Hc. contradiction.
Qed.

Lemma answer_scores_current_player_witness :
  let q := mkQuestion "Which year did Bhutan first hold democratic elections?"
             [ JStr "2008"; JStr "2005"; JStr "2010"; JStr "2013" ]
             "2008" (JStr "hard") in
  let s' := handle (Answer (JStr "2008")) aboutToExpire in
  (JStr "2008" = JStr (answer q) ->
   exists n,
     scores aboutToExpire !! currentPlayer aboutToExpire = Some (Pts n)
     /\ scores s'
        = <[currentPlayer aboutToExpire := Pts (n + 1)]> (scores aboutToExpire))
  /\ (JStr "2008" <> JStr (answer q) -> scores s' = scores aboutToExpire).
Proof.
  intros q.
  apply (answer_scores_current_player aboutToExpire (JStr "2008") q).
  - apply aboutToExpire_reachable.
  - reflexivity.
  - reflexivity.
Defined.

(** X13. The scores account for the answer history: in every reachable
    state the score of each player is a number, the count of that player's
    correct answers in the history (so never [NaN] and never a hole). *)
Theorem scores_count_correct_answers :
  forall (s : State) (i : nat),
    reachable s ->
    i < length (playerNames s) ->
    scores s !! i = Some (Pts (countCorrect i (answersLog s))).
Proof.
  intros s i Hr Hi. destruct (reachable_gameInv s Hr) as (_ & _ & Hsc & _).
  rewrite Hsc. apply scoresOf_lookup, Hi.
Qed.

Lemma scores_count_correct_answers_witness :
  let s := run [ Answer (JStr "2008"); Answer (JStr "2005") ] twoPlayersPlaying in
  scores s !! 0 = Some (Pts (countCorrect 0 (answersLog s))).
Proof.
  intros s. apply (scores_count_correct_answers s 0).
  - apply reachable_run, twoPlayersPlaying_reachable.
  - vm_compute. lia.
Defined.

(** X14. No score exceeds the number of questions in the store: a player
    is asked each question once. *)
Theorem score_at_most_questions :
  forall (s : State) (i : nat) (c : score),
    reachable s ->
    scores s !! i = Some c ->
    exists n, c = Pts n /\ n <= length (backupQuestions s).
Proof.
  intros s i c Hr Hc.
  destruct (reachable_Inv s Hr) as (_ & _ & Hlen & _ & Hscr).
  destruct (reachable_gameInv s Hr) as (_ & _ & Hsc & _ & Hcnt & _).
  assert (Hi : i < length (playerNames s))
    by (rewrite <- Hlen; eapply lookup_lt_Some, Hc).
  rewrite Hsc, (scoresOf_lookup _ _ _ Hi) in Hc. injection Hc as <-.
  eexists; split; [reflexivity|].
  pose proof (countCorrect_le_countBy i (answersLog s)) as Hle.
  specialize (Hcnt i). unfold screenInv in Hscr.
  destruct (i <? currentPlayer s) eqn:Hlt; destruct (visible s);
    try apply Nat.ltb_lt in Hlt; lia.
Qed.

Lemma score_at_most_questions_witness :
  let s := run [ Answer (JStr "2008"); Answer (JStr "2005") ] twoPlayersPlaying in
  exists n, Pts 1 = Pts n /\ n <= length (backupQuestions s).
Proof.
  intros s. apply (score_at_most_questions s 0 (Pts 1)).
  - apply reachable_run, twoPlayersPlaying_reachable.
  - reflexivity.
Defined.

(** X15. Every entry of the answer history agrees with the session: its
    player index is in the roster and its name is the name at that index,
    its question number is between 1 and the number of questions, its
    question, options and correct answer are those of that question in the
    store, and its flag says whether the selected option is that answer. *)
Theorem history_entries_well_formed :
  forall (s : State) (e : LogEntry),
    reachable s ->
    e ∈ answersLog s ->
    entryOk (playerNames s) (backupQuestions s) e.
Proof.
  intros s e Hr He. destruct (reachable_gameInv s Hr) as (_ & _ & _ & Hok & _).
  rewrite Forall_forall in Hok. apply Hok, He.
Qed.

Lemma history_entries_well_formed_witness :
  let s := handle (Answer (JStr "1999")) aboutToExpire in
  entryOk (playerNames s) (backupQuestions s)
    (loggedAnswer aboutToExpire (JStr "1999")
       (mkQuestion "Which year did Bhutan first hold democratic elections?"
          [ JStr "2008"; JStr "2005"; JStr "2010"; JStr "2013" ]
          "2008" (JStr "hard"))).
Proof.
  intros s. apply (history_entries_well_formed s).
  - apply reach_step; [apply aboutToExpire_reachable | reflexivity].
  - vm_compute. apply list_elem_of_here.
Defined.

Lemma log_step s e :
  reachable s ->
  turnEvent e = true ->
  length (answersLog (if enabled s e then handle e s else s))
  = length (answersLog s) + (if enabled s e && isAnswer e then 1 else 0).
Proof.
  intros Hr Hturn. pose proof (reachable_Inv s Hr) as HI.
  pose proof HI as (_ & _ & _ & Ht & Hscr).
  destruct (enabled s e) eqn:Hen; simpl; [|lia].
  destruct e; try discriminate; simpl in Hen.
  - apply screen_eqb_eq in Hen. unfold screenInv in Hscr.
    rewrite Hen in Hscr. destruct Hscr as (_ & Hcq & _).
    destruct (lookup_lt_is_Some_2 _ _ Hcq) as [q Hq].
    destruct (answer_effect s selected q Ht Hq) as (_ & _ & _ & Hlg & _).
    rewrite Hlg, length_app. reflexivity.
  - destruct (tick_effect s Ht) as (_ & _ & _ & Hlg & _).
    change (handle (Tick id) s) with (timerCallback s). rewrite Hlg. simpl. lia.
Qed.

(** X16. The answer history grows by exactly one entry per manual answer
    and by none per tick, expiries included: after any run of answers and
    ticks its length has grown by the number of answers submitted. *)
Theorem history_counts_manual_answers :
  forall (es : list Event) (s : State),
    reachable s ->
    forallb turnEvent es = true ->
    length (answersLog (run es s)) = length (answersLog s) + answersIn es s.
Proof.
  induction es as [|e es IH]; intros s Hr Hall; simpl; [lia|].
  simpl in Hall. apply andb_true_iff in Hall as [He Hes].
  rewrite IH, (log_step s e Hr He); [lia | | exact Hes].
  destruct (enabled s e) eqn:Hen; [by apply reach_step | exact Hr].
Qed.

Lemma history_counts_manual_answers_witness :
  let es := [ Answer (JStr "2008"); Tick 2; Tick 1; Answer (JStr "2005") ] in
  length (answersLog (run es aboutToExpire))
  = length (answersLog aboutToExpire) + answersIn es aboutToExpire.
Proof.
  intros es. apply (history_counts_manual_answers es aboutToExpire).
  - apply aboutToExpire_reachable.
  - reflexivity.
Defined.

(** ** The countdown *)

Section Countdown.

Variable id : nat.
Implicit Types s : State.

Lemma run_cons e es s :
  run (e :: es) s = run es (if enabled s e then handle e s else s).
Proof. reflexivity. Qed.

Lemma turnsTaken_cons e es s :
  turnsTaken (e :: es) s
  = (if advances s e then 1 else 0)
    + turnsTaken es (if enabled s e then handle e s else s).
Proof. reflexivity. Qed.

Lemma tick_enabled s : liveIntervals s = [ id ] -> enabled s (Tick id) = true.
Proof. intros Hl. simpl. rewrite Hl. simpl. by rewrite Nat.eqb_refl. Qed.

(** A tick with more than a second left only decrements the countdown. *)
Lemma tick_waits s :
  reachable s ->
  liveIntervals s = [ id ] ->
  (2 <= questionTimeLeft s)%Z ->
  let s' := if enabled s (Tick id) then handle (Tick id) s else s in
  s' = set_questionTimeLeft (questionTimeLeft s - 1) s
  /\ reachable s'
  /\ advances s (Tick id) = false.
Proof.
  intros Hr Hl Htl. pose proof (tick_enabled s Hl) as Hen.
  destruct (reachable_Inv s Hr) as (_ & _ & _ & Ht & _).
  destruct (tick_effect s Ht) as (_ & _ & _ & _ & _ & Hexp).
  assert (Hno : expires s = false) by (unfold expires; lia).
  rewrite Hno in Hexp. unfold advances. rewrite Hen, Hno.
  change (handle (Tick id) s) with (timerCallback s).
  repeat split; [exact Hexp|].
  change (timerCallback s) with (handle (Tick id) s). by apply reach_step.
Qed.

Lemma ticks_wait k :
  forall s,
    reachable s ->
    liveIntervals s = [ id ] ->
    (Z.of_nat k < questionTimeLeft s)%Z ->
    let s' := run (repeat (Tick id) k) s in
    reachable s'
    /\ liveIntervals s' = [ id ]
    /\ visible s' = visible s
    /\ questionTimeLeft s' = (questionTimeLeft s - Z.of_nat k)%Z
    /\ progress s' = progress s
    /\ turnsTaken (repeat (Tick id) k) s = 0.
Proof.
  induction k as [|k IH]; intros s Hr Hl Htl.
  - simpl. repeat split; auto; lia.
  - change (repeat (Tick id) (S k)) with (Tick id :: repeat (Tick id) k).
    cbv zeta. rewrite run_cons, turnsTaken_cons.
    destruct (tick_waits s Hr Hl) as (Hs1 & Hr1 & Hadv); [lia|].
    rewrite Hadv, Hs1 in *.
    set (s1 := set_questionTimeLeft (questionTimeLeft s - 1) s) in *.
    destruct (IH s1 Hr1 Hl) as (Hr' & Hl' & Hv' & Htl' & Hp' & Ht').
    { change (questionTimeLeft s1) with (questionTimeLeft s - 1)%Z. lia. }
    change (questionTimeLeft s1) with (questionTimeLeft s - 1)%Z in Htl'.
    change (visible s1) with (visible s) in Hv'.
    change (progress s1) with (progress s) in Hp'.
    repeat split; auto; lia.
Qed.

End Countdown.

(** With [T + 1] seconds left, [T] ticks do not advance the turn and the
    next one does. *)
Lemma countdown_wait_then_expire s id T :
  reachable s ->
  liveIntervals s = [ id ] ->
  questionTimeLeft s = Z.of_nat (S T) ->
  turnsTaken (repeat (Tick id) T) s = 0
  /\ advances (run (repeat (Tick id) T) s) (Tick id) = true.
Proof.
  intros Hr Hl Htl.
  destruct (ticks_wait id T s Hr Hl) as (_ & Hl' & _ & Htl' & _ & Ht'); [lia|].
  split; [exact Ht'|].
  unfold advances, expires. rewrite (tick_enabled id _ Hl'), Htl', Htl.
  simpl andb. apply Z.leb_le. lia.
Qed.

(** X17. A question left unanswered times out after exactly the seconds
    that remain: with [T + 1] seconds left, [T] firings of the interval
    only count down, and the next one advances the turn. *)
Theorem countdown_expires_on_time :
  forall (s : State) (id T : nat),
    reachable s ->
    liveIntervals s = [ id ] ->
    questionTimeLeft s = Z.of_nat (S T) ->
    let waited := run (repeat (Tick id) T) s in
    turnsTaken (repeat (Tick id) T) s = 0
    /\ progress waited = progress s
    /\ questionTimeLeft waited = 1%Z
    /\ advances waited (Tick id) = true
    /\ progress (handle (Tick id) waited) = progress s + 1.
Proof.
  intros s id T Hr Hl Htl waited.
  destruct (ticks_wait id T s Hr Hl) as (Hr' & Hl' & Hv' & Htl' & Hp' & Ht');
    [lia|].
  fold waited in Hr', Hl', Hv', Htl', Hp'.
  assert (Hone : questionTimeLeft waited = 1%Z) by lia.
  pose proof (reachable_Inv waited Hr') as HI.
  pose proof (tick_enabled id waited Hl') as Hen.
  pose proof (live_in_quiz waited id HI Hen) as Hq.
  destruct (tick_playing waited HI Hq) as (_ & _ & _ & _ & Hpr).
  assert (Hexp : expires waited = true) by (unfold expires; rewrite Hone; reflexivity).
  rewrite Hexp in Hpr.
  repeat match goal with |- _ /\ _ => split end; auto.
  - unfold advances. rewrite Hen, Hexp. reflexivity.
  - change (handle (Tick id) waited) with (timerCallback waited). lia.
Qed.

Lemma countdown_expires_on_time_witness :
  let waited := run (repeat (Tick 1) 14) twoPlayersPlaying in
  turnsTaken (repeat (Tick 1) 14) twoPlayersPlaying = 0
  /\ progress waited = progress twoPlayersPlaying
  /\ questionTimeLeft waited = 1%Z
  /\ advances waited (Tick 1) = true
  /\ progress (handle (Tick 1) waited) = progress twoPlayersPlaying + 1.
Proof.
  apply (countdown_expires_on_time twoPlayersPlaying 1 14).
  - apply twoPlayersPlaying_reachable.
  - reflexivity.
  - reflexivity.
Defined.

(** X18. A question on display has exactly one running countdown, the one
    whose handle [questionTimerId] holds, and its tick can fire; in every
    other section no interval is scheduled. *)
Theorem one_countdown_per_question :
  forall s : State,
    reachable s ->
    if screen_eqb (visible s) Quiz
    then exists id,
           liveIntervals s = [ id ]
           /\ questionTimerId s = Some id
           /\ enabled s (Tick id) = true
    else liveIntervals s = [].
Proof.
  intros s Hr.
  destruct (reachable_Inv s Hr) as (_ & _ & _ & (_ & Hlive) & Hscr).
  destruct (reachable_gameInv s Hr) as (_ & _ & _ & _ & _ & Hone).
  unfold screenInv in Hscr.
  destruct (visible s) eqn:Hv; simpl; try tauto.
  destruct (Hone eq_refl) as [id Hid]. exists id.
  split; [exact Hid|]. split; [|apply tick_enabled, Hid].
  rewrite Hid in Hlive.
  destruct (questionTimerId s) as [[|n]|]; congruence.
Qed.

Lemma one_countdown_per_question_witness :
  if screen_eqb (visible aboutToExpire) Quiz
  then exists id,
         liveIntervals aboutToExpire = [ id ]
         /\ questionTimerId aboutToExpire = Some id
         /\ enabled aboutToExpire (Tick id) = true
  else liveIntervals aboutToExpire = [].
Proof.
  apply (one_countdown_per_question aboutToExpire).
  apply aboutToExpire_reachable.
Defined.

(** ** Starting a game *)

Lemma difficultyPool_by_choice chosen (qs : list Question) :
  Forall (fun q => tagNormal q = true) qs ->
  difficultyPool chosen qs
  = if String.eqb chosen "easy" then specEasy qs else specHard qs.
Proof.
  intros Hn. destruct (String.eqb_spec chosen "easy") as [->|Hne].
  - by apply difficultyPool_easy.
  - rewrite <- difficultyPool_hard. unfold difficultyPool.
    apply String.eqb_neq in Hne. rewrite Hne. reflexivity.
Qed.

(** X19. Pressing start in the difficulty section shows the first question
    to the first player with all scores at zero and an empty history.  The
    pool is a permutation of the easy selection when the difficulty is
    "easy" and of the hard selection for any other value; the countdown
    starts at 15 seconds when the difficulty is "hard" and at 10 for any
    other value. *)
Theorem start_game_resets_session :
  forall (s : State) (rnd : randomness),
    reachable s ->
    visible s = SetupDifficulty ->
    let s' := handle (StartGame rnd) s in
    visible s' = Quiz
    /\ currentPlayer s' = 0
    /\ currentQuestion s' = 0
    /\ playerNames s' = playerNames s
    /\ scores s' = replicate (length (playerNames s)) (Pts 0)
    /\ answersLog s' = []
    /\ backupQuestions s'
         ≡ₚ (if String.eqb (chosenDifficulty s) "easy"
             then specEasy (backupQuestions s)
             else specHard (backupQuestions s))
    /\ questionTimeLeft s'
       = (if String.eqb (chosenDifficulty s) "hard" then 15 else 10)%Z.
Proof.
  intros s rnd Hr Hvis s'.
  pose proof (reachable_Inv s Hr) as HI.
  pose proof HI as (Hne & Hnorm & _ & Ht & _).
  destruct (reachable_gameInv s Hr) as (_ & Hlog & _).
  destruct (start_playing rnd s HI Hvis) as (_ & Hv & Hcp & Hcq & Hns).
  destruct (start_effect rnd s Ht Hne)
    as (_ & _ & _ & Hlg & Hsc & Hqs & _ & Htl).
  fold s' in Hv, Hcp, Hcq, Hns, Hlg, Hsc, Hqs, Htl.
  repeat match goal with |- _ /\ _ => split end; auto.
  - rewrite Hlg. auto.
  - rewrite Hqs, <- (difficultyPool_by_choice _ _ Hnorm).
    apply shuffleLoop_perm.
Qed.

Lemma start_game_resets_session_witness :
  let s := set_chosenDifficulty "medium" twoPlayersSetup in
  let s' := handle (StartGame someDraws) s in
  visible s' = Quiz
  /\ currentPlayer s' = 0
  /\ currentQuestion s' = 0
  /\ playerNames s' = playerNames s
  /\ scores s' = replicate (length (playerNames s)) (Pts 0)
  /\ answersLog s' = []
  /\ backupQuestions s'
       ≡ₚ (if String.eqb (chosenDifficulty s) "easy"
           then specEasy (backupQuestions s)
           else specHard (backupQuestions s))
  /\ questionTimeLeft s'
     = (if String.eqb (chosenDifficulty s) "hard" then 15 else 10)%Z.
Proof.
  intros s.
  apply (start_game_resets_session s someDraws).
  - apply (reach_step twoPlayersSetup (ChooseDifficulty "medium"));
      [apply twoPlayersSetup_reachable | reflexivity].
  - reflexivity.
Defined.

(** ** The name prompt and the scoreboard *)

(** X20. [playerIndexCounter] is always the number of players plus one:
    the number the add message announces is the one the prompt shows. *)
Theorem counter_is_next_player_number :
  forall s : State,
    reachable s -> playerIndexCounter s = length (playerNames s) + 1.
Proof. intros s Hr. apply (reachable_gameInv s Hr). Qed.

Lemma counter_is_next_player_number_witness :
  playerIndexCounter twoPlayersSetup = length (playerNames twoPlayersSetup) + 1.
Proof.
  apply (counter_is_next_player_number twoPlayersSetup).
  apply twoPlayersSetup_reachable.
Defined.

(** X21. The scoreboard has one line per player, in roster order: the
    name, the number of that player's correct answers, and "point" when
    that number is one, "points" otherwise. *)
Theorem scoreboard_lines :
  forall s : State,
    reachable s ->
    renderScores s
    = imap (fun i name =>
              let n := countCorrect i (answersLog s) in
              name ++ ": " ++ pretty n ++ " point"
              ++ (if n =? 1 then "" else "s"))
        (playerNames s).
Proof.
  intros s Hr. unfold renderScores. apply imap_ext. intros i name Hi.
  destruct (reachable_gameInv s Hr) as (_ & _ & Hsc & _).
  rewrite Hsc, (scoresOf_lookup _ _ _ (lookup_lt_Some _ _ _ Hi)).
  unfold scoreLine. simpl.
  destruct (countCorrect i (answersLog s)) as [|[|n]]; reflexivity.
Qed.

Lemma scoreboard_lines_witness :
  let s := run [ Answer (JStr "2008"); Answer (JStr "2005") ] twoPlayersPlaying in
  renderScores s
  = imap (fun i name =>
            let n := countCorrect i (answersLog s) in
            name ++ ": " ++ pretty n ++ " point"
            ++ (if n =? 1 then "" else "s"))
      (playerNames s).
Proof.
  intros s. apply (scoreboard_lines s).
  apply reachable_run, twoPlayersPlaying_reachable.
Defined.

(** The scoreboard of the two-player example after one correct and one
    wrong answer. *)
Lemma scoreboard_example :
  renderScores
    (run [ Answer (JStr "2008"); Answer (JStr "2005") ] twoPlayersPlaying)
  = [ "Ann: 1 point"; "Bob: 0 points" ].
Proof. vm_compute. reflexivity. Qed.

(** ** The game ends without input *)

Section Timeout.

Implicit Types (s : State) (es : list Event).

Lemma run_app es1 : forall es2 s, run (es1 ++ es2) s = run es2 (run es1 s).
Proof. induction es1 as [|e es1 IH]; intros es2 s; simpl; auto. Qed.

Lemma turnsTaken_app es1 :
  forall es2 s,
    turnsTaken (es1 ++ es2) s
    = turnsTaken es1 s + turnsTaken es2 (run es1 s).
Proof.
  induction es1 as [|e es1 IH]; intros es2 s; simpl; [reflexivity|].
  rewrite IH. lia.
Qed.

Lemma ticks_are_turn_events id k es :
  forallb turnEvent es = true ->
  forallb turnEvent (repeat (Tick id) k ++ es) = true.
Proof. intros Hes. induction k as [|k IH]; simpl; auto. Qed.

(** Letting the countdown of the question on display run out. *)
Lemma expire_turn s :
  reachable s ->
  visible s = Quiz ->
  exists id T,
    let es := (repeat (Tick id) T ++ [ Tick id ])%list in
    forallb turnEvent es = true /\ turnsTaken es s = 1.
Proof.
  intros Hr Hvis.
  destruct (reachable_Inv s Hr) as (_ & _ & _ & _ & Hscr).
  destruct (reachable_gameInv s Hr) as (_ & _ & _ & _ & _ & Hone).
  unfold screenInv in Hscr. rewrite Hvis in Hscr. destruct Hscr as (_ & _ & Htl).
  destruct (Hone Hvis) as [id Hid].
  exists id, (Z.to_nat (questionTimeLeft s - 1)). cbv zeta.
  split; [by apply ticks_are_turn_events|].
  destruct (countdown_wait_then_expire s id (Z.to_nat (questionTimeLeft s - 1)))
    as (Hzero & Hadv); auto; [lia|].
  rewrite turnsTaken_app, Hzero. simpl. rewrite Hadv. reflexivity.
Qed.

End Timeout.

Lemma timeout_reaches_results (n m d : nat) :
  forall s,
    reachable s ->
    playing n m s ->
    n * m - progress s <= d ->
    exists es,
      Forall (fun e => exists id, e = Tick id) es
      /\ visible (run es s) = Results.
Proof.
  induction d as [|d IH]; intros s Hr Hp Hd;
    destruct (playing_progress n m s Hp) as (_ & _ & Hquiz);
    pose proof Hp as (_ & _ & _ & [Hv | Hv]);
    try (exists []; split; [constructor | exact Hv]);
    pose proof (proj1 Hquiz Hv) as Hlt; [lia|].
  destruct (expire_turn s Hr Hv) as (id & T & Hall & Hone).
  set (es1 := (repeat (Tick id) T ++ [ Tick id ])%list) in *.
  destruct (run_turns n m es1 s Hp Hall) as [Hp1 Hpr1].
  destruct (IH (run es1 s)) as (es2 & Hticks & Hres);
    [by apply reachable_run | exact Hp1 | lia |].
  exists (es1 ++ es2)%list. rewrite run_app. split; [|exact Hres].
  apply Forall_app. split; [|exact Hticks].
  apply Forall_app. split; [|repeat constructor; eauto].
  clear. induction T; simpl; constructor; eauto.
Qed.

(** X22. The game cannot stall: from every reachable state that shows a
    question there is a run of timer ticks alone, with no answer from
    anyone, that ends on the results section. *)
Theorem ticks_alone_end_the_game :
  forall s : State,
    reachable s ->
    visible s = Quiz ->
    exists es,
      Forall (fun e => exists id, e = Tick id) es
      /\ visible (run es s) = Results.
Proof.
  intros s Hr Hv.
  apply (timeout_reaches_results (length (playerNames s))
           (length (backupQuestions s))
           (length (playerNames s) * length (backupQuestions s)) s Hr).
  - unfold playing. auto using reachable_Inv.
  - lia.
Qed.

Lemma ticks_alone_end_the_game_witness :
  exists es,
    Forall (fun e => exists id, e = Tick id) es
    /\ visible (run es aboutToExpire) = Results.
Proof.
  apply (ticks_alone_end_the_game aboutToExpire).
  - apply aboutToExpire_reachable.
  - reflexivity.
Defined.
